(** * SimpleStreamSync: the client-side stream registry of StreamMod

    A shallow embedding of [packages/nextjs/lib/simpleStreamSync.ts],
    and of what the facade [StreamingContract] adds to it, with the
    properties its specification states about it and further
    properties of the code.

    Modelling conventions.
    - [localStorage] is an ordered list of key/value pairs.  [key(i)] is
      the i-th entry of the list; a new key is added at the end, an
      overwritten key keeps its place, and removing a key moves every
      later key one index down.  (The Web Storage standard leaves the
      enumeration order to the browser and only asks that it be stable
      while the number of keys does not change.  The theorems below are
      proved through invariants of the scan that hold whichever keys it
      visits; the order matters only where a concrete storage shows the
      scan passing over a key, and in [scanLoop_progress], which uses
      that a key keeps its index as long as no key is removed.)
    - a stored text is represented by what [JSON.parse] makes of it at
      the site that reads it ([Stored]): the encoding of a stream
      record, of a list of stream records, of a chat transcript, the
      empty text, or a text that does not decode.  A text of another
      shape than the TypeScript annotation of the reading site counts
      as not decoding there.  [localStorage.setItem] never runs out of
      quota.
    - JavaScript numbers are mathematical integers ([Z]): time stamps
      and viewer counts stay far inside the range where doubles are
      exact.
    - [Date.now()] and the random suffix of generated identifiers are
      arguments of the operation that reads them.
    - an exception is an explicit outcome ([Throw]); side effects made
      before a throw are kept, as in JavaScript.
    - the code runs in a browser: [typeof window !== 'undefined'] holds.
    - a subscriber callback is known to the registry by its identity
      and by whether it throws on the data it is given; callbacks do not
      re-enter the registry.
    - work deferred with [setTimeout] (the extra reconciliation pass 50
      ms after create/end) and the synthetic [storage] event (whose
      handler only schedules another deferred pass) are not part of the
      call that schedules them; a later pass is a later call of
      [syncStreams]. *)

From Stdlib Require Import ZArith List String Ascii Bool Lia Arith.
From Stdlib Require Import DecimalString DecimalZ.
Import ListNotations.
Open Scope string_scope.
Open Scope Z_scope.

Set Implicit Arguments.

(** ** Data model *)

Module Stream.
Record t := mk {
  id : string;
  title : string;
  category : string;
  topic : string;
  streamerAddress : string;
  isLive : bool;
  viewerCount : Z;
  startTime : Z;
  moderators : list string;
  lastUpdate : Z
}.
End Stream.

Definition StreamData := Stream.t.

Inductive MessageType := TMessage | TJoin | TLeave | TSystem.

Module Chat.
Record t := mk {
  id : string;
  streamId : string;
  sender : string;
  senderAddress : option string;
  message : string;
  timestamp : Z;
  type : MessageType
}.
End Chat.

Definition ChatMessage := Chat.t.

(** [Partial<StreamData>]: the fields an update carries. *)
Module Partial.
Record t := mk {
  id : option string;
  title : option string;
  category : option string;
  topic : option string;
  streamerAddress : option string;
  isLive : option bool;
  viewerCount : option Z;
  startTime : option Z;
  moderators : option (list string);
  lastUpdate : option Z
}.
End Partial.

Definition orElse {A} (o : option A) (d : A) : A :=
  match o with Some a => a | None => d end.

(** [{ ...stream, ...updates, lastUpdate: now }] *)
Definition merge (stream : StreamData) (updates : Partial.t) (now : Z) : StreamData :=
  Stream.mk
    (orElse (Partial.id updates) (Stream.id stream))
    (orElse (Partial.title updates) (Stream.title stream))
    (orElse (Partial.category updates) (Stream.category stream))
    (orElse (Partial.topic updates) (Stream.topic stream))
    (orElse (Partial.streamerAddress updates) (Stream.streamerAddress stream))
    (orElse (Partial.isLive updates) (Stream.isLive stream))
    (orElse (Partial.viewerCount updates) (Stream.viewerCount stream))
    (orElse (Partial.startTime updates) (Stream.startTime stream))
    (orElse (Partial.moderators updates) (Stream.moderators stream))
    now.

(** ** localStorage *)

Inductive Stored :=
| SStream (s : StreamData)
| SIndex (l : list StreamData)
| SChat (l : list ChatMessage)
| SEmpty
| SGarbage.

Definition Storage := list (string * Stored).

Fixpoint lookup (key : string) (st : Storage) : option Stored :=
  match st with
  | [] => None
  | (k, v) :: rest => if String.eqb k key then Some v else lookup key rest
  end.

Fixpoint store (key : string) (v : Stored) (st : Storage) : Storage :=
  match st with
  | [] => [(key, v)]
  | (k, v') :: rest =>
      if String.eqb k key then (k, v) :: rest else (k, v') :: store key v rest
  end.

Definition remove (key : string) (st : Storage) : Storage :=
  filter (fun kv => negb (String.eqb (fst kv) key)) st.

(** ** Subscribers, broadcasts and the world a call runs in *)

Inductive Payload :=
| PStream (s : StreamData)
| PStreams (l : list StreamData)
| PStreamId (streamId : string)
| PMessage (m : ChatMessage)
| PViewer (streamId viewerName : string) (viewerAddress : option string).

Record Listener := mkListener {
  fid : nat;
  throws : Payload -> bool
}.

Inductive Broadcast :=
| BStreamCreated (stream : StreamData) (windowId : string)
| BStreamEnded (streamId : string) (windowId : string)
| BSyncRequest (windowId : string)
| BSyncResponse (streams : list StreamData) (windowId : string)
| BStreamsCleared (windowId : string).

Record World := mkWorld {
  ls : Storage;
  listeners : list (string * list Listener);
  invoked : list (nat * Payload);
  hasChannel : bool;
  posted : list Broadcast;
  windowId : string
}.

Definition withStorage (w : World) (st : Storage) : World :=
  mkWorld st (listeners w) (invoked w) (hasChannel w) (posted w) (windowId w).

Definition withListeners (w : World) (l : list (string * list Listener)) : World :=
  mkWorld (ls w) l (invoked w) (hasChannel w) (posted w) (windowId w).

Definition logCall (w : World) (c : nat * Payload) : World :=
  mkWorld (ls w) (listeners w) (invoked w ++ [c])%list (hasChannel w) (posted w) (windowId w).

Definition logPost (w : World) (b : Broadcast) : World :=
  mkWorld (ls w) (listeners w) (invoked w) (hasChannel w) (posted w ++ [b])%list (windowId w).

Definition emptyWorld : World := mkWorld [] [] [] true [] "window_0_a".

(** ** Calls: state and exceptions *)

Inductive Outcome (A : Type) :=
| Ret (a : A)
| Throw.

Arguments Throw {A}.

Definition Sync (A : Type) := World -> Outcome A * World.

Definition ret {A} (a : A) : Sync A := fun w => (Ret a, w).

Definition throw {A} : Sync A := fun w => (Throw, w).

Definition bind {A B} (m : Sync A) (k : A -> Sync B) : Sync B :=
  fun w => match m w with
           | (Ret a, w') => k a w'
           | (Throw, w') => (Throw, w')
           end.

(** [try { m } catch { h }] *)
Definition tryCatch {A} (m : Sync A) (h : Sync A) : Sync A :=
  fun w => match m w with
           | (Ret a, w') => (Ret a, w')
           | (Throw, w') => h w'
           end.

Declare Scope sync_scope.
Delimit Scope sync_scope with sync.
Notation "x <- m ;; k" := (bind m (fun x => k))
  (at level 100, m at next level, right associativity) : sync_scope.
Notation "m ;; k" := (bind m (fun _ => k))
  (at level 100, right associativity) : sync_scope.
Open Scope sync_scope.

Fixpoint foldM {A B} (f : A -> B -> Sync A) (l : list B) (a : A) : Sync A :=
  match l with
  | [] => ret a
  | b :: rest => a' <- f a b ;; foldM f rest a'
  end.

(** *** Storage primitives *)

Definition getItem (key : string) : Sync (option Stored) :=
  fun w => (Ret (lookup key (ls w)), w).

Definition setItem (key : string) (v : Stored) : Sync unit :=
  fun w => (Ret tt, withStorage w (store key v (ls w))).

Definition removeItem (key : string) : Sync unit :=
  fun w => (Ret tt, withStorage w (remove key (ls w))).

Definition lsLength : Sync nat :=
  fun w => (Ret (List.length (ls w)), w).

Definition lsKey (i : nat) : Sync (option string) :=
  fun w => (Ret (option_map fst (nth_error (ls w) i)), w).

(** [if (x)] on the result of [getItem]: [null] and the empty text are
    falsy. *)
Definition truthy (o : option Stored) : bool :=
  match o with
  | None => false
  | Some SEmpty => false
  | Some _ => true
  end.

(** [JSON.parse] at a site typed [StreamData], [StreamData[]],
    [ChatMessage[]]. *)
Definition parseStream (o : option Stored) : Sync StreamData :=
  match o with
  | Some (SStream s) => ret s
  | _ => throw
  end.

Definition parseIndex (o : option Stored) : Sync (list StreamData) :=
  match o with
  | Some (SIndex l) => ret l
  | _ => throw
  end.

Definition parseChat (o : option Stored) : Sync (list ChatMessage) :=
  match o with
  | Some (SChat l) => ret l
  | _ => throw
  end.

(** *** Keys *)

Definition streamPrefix : string := "pandapi_stream_".
Definition chatPrefix : string := "pandapi_chat_".
Definition globalKey : string := "pandapi_global_streams".

Definition streamKey (id : string) : string := streamPrefix ++ id.
Definition chatKey (streamId : string) : string := chatPrefix ++ streamId.

Definition startsWith (s p : string) : bool := String.prefix p s.

(** a string in a condition: the empty string is falsy *)
Definition nonEmpty (s : string) : bool := negb (String.eqb s "").

Definition string_of_Z (z : Z) : string := NilZero.string_of_int (Z.to_int z).

(** [arr.slice(-n)]: the last [n] elements *)
Definition sliceLast {A} (n : nat) (l : list A) : list A :=
  skipn (List.length l - n) l.

(** ** The event hub *)

Fixpoint getListeners (event : string) (m : list (string * list Listener)) : option (list Listener) :=
  match m with
  | [] => None
  | (e, l) :: rest => if String.eqb e event then Some l else getListeners event rest
  end.

Fixpoint setListeners (event : string) (l : list Listener) (m : list (string * list Listener))
  : list (string * list Listener) :=
  match m with
  | [] => [(event, l)]
  | (e, l') :: rest =>
      if String.eqb e event then (e, l) :: rest else (e, l') :: setListeners event l rest
  end.

Definition on (event : string) (callback : Listener) : Sync unit :=
  fun w =>
    let m := match getListeners event (listeners w) with
             | None => setListeners event [] (listeners w)
             | Some _ => listeners w
             end in
    (Ret tt, withListeners w (setListeners event (orElse (getListeners event m) [] ++ [callback])%list m)).

(** [listeners.indexOf(callback)] then [splice(index, 1)]: the first
    occurrence of that very function goes. *)
Fixpoint spliceFirst (f : nat) (l : list Listener) : list Listener :=
  match l with
  | [] => []
  | c :: rest => if Nat.eqb (fid c) f then rest else c :: spliceFirst f rest
  end.

Definition off (event : string) (callback : Listener) : Sync unit :=
  fun w =>
    match getListeners event (listeners w) with
    | None => (Ret tt, w)
    | Some l => (Ret tt, withListeners w (setListeners event (spliceFirst (fid callback) l) (listeners w)))
    end.

(** [listener(data)] *)
Definition call (listener : Listener) (data : Payload) : Sync unit :=
  fun w => (if throws listener data then Throw else Ret tt, logCall w (fid listener, data)).

Definition triggerListeners (event : string) (data : Payload) : Sync unit :=
  fun w =>
    let listeners := orElse (getListeners event (listeners w)) [] in
    foldM (fun (_ : unit) listener => tryCatch (call listener data) (ret tt)) listeners tt w.

Definition broadcastStreamEvent (mk : string -> Broadcast) : Sync unit :=
  fun w =>
    if hasChannel w then (Ret tt, logPost w (mk (windowId w))) else (Ret tt, w).

(** ** Reconciliation: [getAllStreamsFromStorage] *)

Definition maxAge : Z := 24 * 60 * 60 * 1000.

(** the two locals of the function: [streams] and [streamIds] *)
Record Found := mkFound {
  streams : list StreamData;
  streamIds : list string
}.

Definition emptyFound : Found := mkFound [] [].

Definition has (id : string) (ids : list string) : bool :=
  existsb (String.eqb id) ids.

Definition push (acc : Found) (s : StreamData) (id : string) : Found :=
  mkFound (streams acc ++ [s])%list (id :: streamIds acc).

(** Method 1, the body of [parsedStreams.forEach].  The only decoding in
    it sits in its own [try], so the callback returns normally. *)
Definition indexEntry (currentTime : Z) (acc : Found) (stream : StreamData) : Sync Found :=
  let streamAge := currentTime - Stream.startTime stream in
  if Stream.isLive stream && nonEmpty (Stream.id stream)
     && negb (has (Stream.id stream) (streamIds acc)) && (streamAge <? maxAge)
  then
    individualStream <- getItem (streamKey (Stream.id stream)) ;;
    if truthy individualStream then
      tryCatch
        (verifiedStream <- parseStream individualStream ;;
         if Stream.isLive verifiedStream
         then ret (push acc verifiedStream (Stream.id stream))
         else ret acc)
        (removeItem (streamKey (Stream.id stream)) ;; ret acc)
    else ret acc
  else if streamAge >=? maxAge then
    removeItem (streamKey (Stream.id stream)) ;; ret acc
  else ret acc.

Definition method1 (currentTime : Z) (acc : Found) : Sync Found :=
  globalStreams <- getItem globalKey ;;
  if truthy globalStreams then
    tryCatch
      (parsedStreams <- parseIndex globalStreams ;;
       foldM (indexEntry currentTime) parsedStreams acc)
      (ret acc)
  else ret acc.

(** Method 2, the body of the [for] loop over [localStorage.key(i)]. *)
Definition scanEntry (currentTime : Z) (key : option string) (acc : Found) : Sync Found :=
  match key with
  | Some key =>
      if nonEmpty key && startsWith key streamPrefix then
        tryCatch
          (streamData <- getItem key ;;
           if truthy streamData then
             stream <- parseStream streamData ;;
             let streamAge := currentTime - Stream.startTime stream in
             if Stream.isLive stream && nonEmpty (Stream.id stream)
                && negb (has (Stream.id stream) (streamIds acc)) && (streamAge <? maxAge)
             then ret (push acc stream (Stream.id stream))
             else if negb (Stream.isLive stream) || (streamAge >=? maxAge) then
               removeItem key ;; ret acc
             else ret acc
           else ret acc)
          (removeItem key ;; ret acc)
      else ret acc
  | None => ret acc
  end.

(** [for (let i = 0; i < localStorage.length; i++)]: the bound is read
    again at every turn.  [fuel] bounds the number of turns; the loop is
    started with the length of the storage, which is enough, since [i]
    grows at every turn and the length never does: the loop ends on
    its own test, and more fuel changes nothing ([scanLoop_fuel],
    [method2_fuel]). *)
Fixpoint scanLoop (fuel : nat) (currentTime : Z) (i : nat) (acc : Found) : Sync Found :=
  match fuel with
  | O => ret acc
  | S fuel' =>
      n <- lsLength ;;
      if (i <? n)%nat then
        key <- lsKey i ;;
        acc' <- scanEntry currentTime key acc ;;
        scanLoop fuel' currentTime (S i) acc'
      else ret acc
  end.

Definition method2 (currentTime : Z) (acc : Found) : Sync Found :=
  n <- lsLength ;;
  scanLoop n currentTime 0 acc.

(** [streams] and [streamIds] are threaded through the two methods.
    Nothing in the outer [try] throws ([getAll_sound]), so its [catch],
    which would return what [streams] holds by then, is never
    entered. *)
Definition getAllStreamsFromStorage (currentTime : Z) : Sync (list StreamData) :=
  streams <- tryCatch
               (acc <- method1 currentTime emptyFound ;;
                acc <- method2 currentTime acc ;;
                let liveStreams := filter Stream.isLive (streams acc) in
                setItem globalKey (SIndex liveStreams) ;;
                ret (streams acc))
               (ret []) ;;
  ret (filter Stream.isLive streams).

Definition getAllActiveStreams (now : Z) : Sync (list StreamData) :=
  getAllStreamsFromStorage now.

Definition syncStreams (now : Z) : Sync unit :=
  tryCatch
    (allStreams <- getAllStreamsFromStorage now ;;
     triggerListeners "streamsUpdated" (PStreams allStreams))
    (ret tt).

(** ** Writing streams *)

Definition notId (id : string) (s : StreamData) : bool :=
  negb (String.eqb (Stream.id s) id).

Definition storeStream (stream : StreamData) : Sync unit :=
  tryCatch
    (setItem (streamKey (Stream.id stream)) (SStream stream) ;;
     existingGlobalStreams <- getItem globalKey ;;
     globalStreams <- (if truthy existingGlobalStreams
                       then tryCatch (parseIndex existingGlobalStreams) (ret [])
                       else ret []) ;;
     let globalStreams := filter (notId (Stream.id stream)) globalStreams in
     let globalStreams := if Stream.isLive stream then (globalStreams ++ [stream])%list else globalStreams in
     setItem globalKey (SIndex globalStreams))
    (ret tt).

(** [streamData] lacks [id] and [lastUpdate]; both are set here. *)
Definition createStream (now : Z) (rnd : string) (streamData : StreamData) : Sync string :=
  let streamId := "stream_" ++ string_of_Z now ++ "_" ++ rnd in
  let stream := merge streamData
                  (Partial.mk (Some streamId) None None None None None None None None None) now in
  storeStream stream ;;
  triggerListeners "streamCreated" (PStream stream) ;;
  broadcastStreamEvent (BStreamCreated stream) ;;
  ret streamId.

Definition updateStream (now : Z) (streamId : string) (updates : Partial.t) : Sync bool :=
  tryCatch
    (existingData <- getItem (streamKey streamId) ;;
     if truthy existingData then
       stream <- parseStream existingData ;;
       let updatedStream := merge stream updates now in
       storeStream updatedStream ;;
       triggerListeners "streamUpdated" (PStream updatedStream) ;;
       ret true
     else ret false)
    (ret false).

Definition setIsLive (b : bool) : Partial.t :=
  Partial.mk None None None None None (Some b) None None None None.

Definition setViewerCount (n : Z) : Partial.t :=
  Partial.mk None None None None None None (Some n) None None None.

Definition endStream (now : Z) (streamId : string) : Sync unit :=
  tryCatch
    (updateStream now streamId (setIsLive false) ;;
     globalStreamsData <- getItem globalKey ;;
     (if truthy globalStreamsData then
        tryCatch
          (globalStreams <- parseIndex globalStreamsData ;;
           let filteredStreams := filter (notId streamId) globalStreams in
           setItem globalKey (SIndex filteredStreams))
          (ret tt)
      else ret tt) ;;
     removeItem (streamKey streamId) ;;
     removeItem (chatKey streamId) ;;
     triggerListeners "streamEnded" (PStreamId streamId) ;;
     broadcastStreamEvent (BStreamEnded streamId))
    (ret tt).

(** ** Chat *)

Definition getChatMessages (streamId : string) : Sync (list ChatMessage) :=
  tryCatch
    (messagesData <- getItem (chatKey streamId) ;;
     if truthy messagesData then parseChat messagesData else ret [])
    (ret []).

Definition sendMessage (now : Z) (rnd : string)
    (streamId sender message : string) (senderAddress : option string) : Sync bool :=
  tryCatch
    (let chatMessage :=
       Chat.mk ("msg_" ++ string_of_Z now ++ "_" ++ rnd)
               streamId sender senderAddress message now TMessage in
     existingMessages <- getChatMessages streamId ;;
     let updatedMessages := sliceLast 100 (existingMessages ++ [chatMessage])%list in
     setItem (chatKey streamId) (SChat updatedMessages) ;;
     triggerListeners "newMessage" (PMessage chatMessage) ;;
     ret true)
    (ret false).

Definition hasId (id : string) (s : StreamData) : bool :=
  String.eqb (Stream.id s) id.

Definition joinStream (now : Z) (rnd : string)
    (streamId viewerName : string) (viewerAddress : option string) : Sync bool :=
  active <- getAllActiveStreams now ;;
  match find (hasId streamId) active with
  | Some stream =>
      updateStream now streamId (setViewerCount (Stream.viewerCount stream + 1)) ;;
      let joinMessage :=
        Chat.mk ("join_" ++ string_of_Z now ++ "_" ++ rnd)
                streamId "System" None (viewerName ++ " joined the stream") now TJoin in
      existingMessages <- getChatMessages streamId ;;
      let updatedMessages := sliceLast 100 (existingMessages ++ [joinMessage])%list in
      setItem (chatKey streamId) (SChat updatedMessages) ;;
      triggerListeners "viewerJoined" (PViewer streamId viewerName viewerAddress) ;;
      triggerListeners "newMessage" (PMessage joinMessage) ;;
      ret true
  | None => ret false
  end.

Definition leaveStream (now : Z) (rnd : string) (streamId viewerName : string) : Sync bool :=
  active <- getAllActiveStreams now ;;
  match find (hasId streamId) active with
  | Some stream =>
      updateStream now streamId (setViewerCount (Z.max 0 (Stream.viewerCount stream - 1))) ;;
      let leaveMessage :=
        Chat.mk ("leave_" ++ string_of_Z now ++ "_" ++ rnd)
                streamId "System" None (viewerName ++ " left the stream") now TLeave in
      existingMessages <- getChatMessages streamId ;;
      let updatedMessages := sliceLast 100 (existingMessages ++ [leaveMessage])%list in
      setItem (chatKey streamId) (SChat updatedMessages) ;;
      triggerListeners "viewerLeft" (PViewer streamId viewerName None) ;;
      triggerListeners "newMessage" (PMessage leaveMessage) ;;
      ret true
  | None => ret false
  end.

(** ** Broadcasts from other contexts *)

Definition storeStreamFromBroadcast (stream : StreamData) : Sync unit :=
  tryCatch
    (if Stream.isLive stream && nonEmpty (Stream.id stream) then
       existingStream <- getItem (streamKey (Stream.id stream)) ;;
       if negb (truthy existingStream) then storeStream stream else ret tt
     else ret tt)
    (ret tt).

Definition removeStreamFromBroadcast (streamId : string) : Sync unit :=
  tryCatch
    (removeItem (streamKey streamId) ;;
     removeItem (chatKey streamId) ;;
     globalStreamsData <- getItem globalKey ;;
     if truthy globalStreamsData then
       globalStreams <- parseIndex globalStreamsData ;;
       let filteredStreams := filter (notId streamId) globalStreams in
       setItem globalKey (SIndex filteredStreams)
     else ret tt)
    (ret tt).

(** the [message] handler installed on the channel by [startSync] *)
Definition onMessage (now : Z) (data : Broadcast) : Sync unit :=
  match data with
  | BStreamCreated stream _ =>
      storeStreamFromBroadcast stream ;;
      triggerListeners "streamCreated" (PStream stream) ;;
      syncStreams now
  | BStreamEnded streamId _ =>
      removeStreamFromBroadcast streamId ;;
      triggerListeners "streamEnded" (PStreamId streamId) ;;
      syncStreams now
  | BSyncRequest _ =>
      currentStreams <- getAllStreamsFromStorage now ;;
      if (0 <? List.length currentStreams)%nat then
        fun w => (Ret tt, logPost w (BSyncResponse currentStreams (windowId w)))
      else ret tt
  | BSyncResponse streams sender =>
      fun w =>
        if negb (String.eqb sender (windowId w)) then
          (foldM (fun (_ : unit) stream => storeStreamFromBroadcast stream) streams tt ;;
           syncStreams now) w
        else (Ret tt, w)
  | BStreamsCleared _ => ret tt
  end.

(** ** Clearing: [clearAllStreams] *)

Definition pandapiPrefix : string := "pandapi_".

(** [for (let i = 0; i < localStorage.length; i++)] with
    [if (key?.startsWith('pandapi_')) keysToRemove.push(key)]: the keys
    are collected first, nothing is removed while the loop runs.
    [fuel] bounds the number of turns as in [scanLoop]; the loop is
    started with the length of the storage. *)
Fixpoint collectLoop (fuel : nat) (i : nat) (keysToRemove : list string) : Sync (list string) :=
  match fuel with
  | O => ret keysToRemove
  | S fuel' =>
      n <- lsLength ;;
      if (i <? n)%nat then
        key <- lsKey i ;;
        let keysToRemove :=
          match key with
          | Some key =>
              if startsWith key pandapiPrefix then (keysToRemove ++ [key])%list else keysToRemove
          | None => keysToRemove
          end in
        collectLoop fuel' (S i) keysToRemove
      else ret keysToRemove
  end.

Definition clearAllStreams : Sync unit :=
  tryCatch
    (n <- lsLength ;;
     keysToRemove <- collectLoop n 0 [] ;;
     foldM (fun (_ : unit) key => removeItem key) keysToRemove tt ;;
     broadcastStreamEvent BStreamsCleared ;;
     triggerListeners "streamsUpdated" (PStreams []))
    (ret tt).

(** ** The facade the pages call: [StreamingContract]

    [updateStream], [endStream], [sendMessage], [getChatMessages],
    [joinStream], [leaveStream], [getAllActiveStreams],
    [clearAllStreams], [on] and [off] of the facade pass their
    arguments on to the registry and return what it returns; the two
    methods that do more are embedded. *)

Module StreamingContract.

(** [{ ...streamData, viewerCount: 0 }], then the registry's
    [createStream] *)
Definition createStream (now : Z) (rnd : string) (streamData : StreamData) : Sync string :=
  let fullStreamData :=
    Stream.mk (Stream.id streamData) (Stream.title streamData) (Stream.category streamData)
              (Stream.topic streamData) (Stream.streamerAddress streamData)
              (Stream.isLive streamData) 0 (Stream.startTime streamData)
              (Stream.moderators streamData) (Stream.lastUpdate streamData) in
  createStream now rnd fullStreamData.

(** [streams.find(s => s.id === streamId) || null] *)
Definition getStream (now : Z) (streamId : string) : Sync (option StreamData) :=
  streams <- getAllActiveStreams now ;;
  ret (find (hasId streamId) streams).

End StreamingContract.

(** ** Running a call *)

Definition result {A} (r : Outcome A * World) : Outcome A := fst r.
Definition after {A} (r : Outcome A * World) : World := snd r.
Definition storageOf (st : Storage) : World := withStorage emptyWorld st.

(** sample records *)
Definition sample (id : string) (live : bool) (start : Z) (viewers : Z) : StreamData :=
  Stream.mk id "Test" "Gaming" "chat" "0xabc" live viewers start [] start.

(** * The vocabulary of the properties *)

Unset Implicit Arguments.

(** [this.listeners.get(event) || []] *)
Definition subscribers (event : string) (w : World) : list Listener :=
  orElse (getListeners event (listeners w)) [].

(** the world after [triggerListeners(event, data)] *)
Definition afterTrigger (event : string) (data : Payload) (w : World) : World :=
  mkWorld (ls w) (listeners w)
          (invoked w ++ map (fun l => (fid l, data)) (subscribers event w))%list
          (hasChannel w) (posted w) (windowId w).

(** the world after [broadcastStreamEvent] *)
Definition afterBroadcast (mk : string -> Broadcast) (w : World) : World :=
  if hasChannel w then logPost w (mk (windowId w)) else w.

(** what [getChatMessages] reads: an absent, empty or undecodable
    transcript is the empty one *)
Definition chatOf (streamId : string) (st : Storage) : list ChatMessage :=
  match lookup (chatKey streamId) st with
  | Some (SChat l) => l
  | _ => []
  end.

(** the message [sendMessage] builds *)
Definition chatMessageOf (now : Z) (rnd streamId sender message : string)
    (senderAddress : option string) : ChatMessage :=
  Chat.mk ("msg_" ++ string_of_Z now ++ "_" ++ rnd)
          streamId sender senderAddress message now TMessage.

(** the storage after a transcript has been extended by [m] *)
Definition appendChat (streamId : string) (m : ChatMessage) (st : Storage) : Storage :=
  store (chatKey streamId) (SChat (sliceLast 100 (chatOf streamId st ++ [m]))) st.

(** [st] is [st0] with some individual stream keys removed *)
Definition purged (st0 st : Storage) : Prop :=
  forall key, lookup key st = lookup key st0 \/
              (lookup key st = None /\ exists id, key = streamKey id).

(** the record is held under an individual stream key *)
Definition held (s : StreamData) (st : Storage) : Prop :=
  exists id, lookup (streamKey id) st = Some (SStream s).

(** what the pass keeps in any storage [ls w0]: nothing but storage
    changes, only stream keys go, and every record collected is live
    and was stored *)
Record Sound (w0 : World) (acc : Found) (w : World) : Prop := mkSound {
  sound_frame : w = withStorage w0 (ls w);
  sound_purged : purged (ls w0) (ls w);
  sound_streams : forall s, In s (streams acc) -> Stream.isLive s = true /\ held s (ls w0)
}.

(** the entries Method 1 walks through: none when the index is absent,
    empty or undecodable *)
Definition indexOf (st : Storage) : list StreamData :=
  match lookup globalKey st with
  | Some (SIndex l) => l
  | _ => []
  end.

(** every individual record sits under the key built from its own id *)
Definition keyConsistent (st : Storage) : Prop :=
  forall key s, lookup (streamKey key) st = Some (SStream s) ->
                Stream.id s = key.

(** no individually keyed record carries the id *)
Definition noRecord (id : string) (st : Storage) : Prop :=
  forall s, held s st -> Stream.id s <> id.

(** the storage after [storeStream] *)
Definition storeStreamS (s : StreamData) (st : Storage) : Storage :=
  let st1 := store (streamKey (Stream.id s)) (SStream s) st in
  let kept := filter (notId (Stream.id s)) (indexOf st1) in
  store globalKey (SIndex (if Stream.isLive s then kept ++ [s] else kept)%list) st1.

(** the storage after [updateStream] *)
Definition updateS (now : Z) (streamId : string) (updates : Partial.t) (st : Storage) : Storage :=
  match lookup (streamKey streamId) st with
  | Some (SStream s) => storeStreamS (merge s updates now) st
  | _ => st
  end.

(** drop the id from the index, when there is a decodable index *)
Definition unlist (streamId : string) (st : Storage) : Storage :=
  match lookup globalKey st with
  | Some (SIndex l) => store globalKey (SIndex (filter (notId streamId) l)) st
  | _ => st
  end.

(** the storage after [endStream] *)
Definition endS (now : Z) (streamId : string) (st : Storage) : Storage :=
  remove (chatKey streamId)
    (remove (streamKey streamId)
       (unlist streamId (updateS now streamId (setIsLive false) st))).

(** the storage after [removeStreamFromBroadcast] *)
Definition removeS (streamId : string) (st : Storage) : Storage :=
  unlist streamId (remove (chatKey streamId) (remove (streamKey streamId) st)).


(** the list [getAllActiveStreams()] returns at [now] in [w] *)
Definition activeStreams (now : Z) (w : World) : list StreamData :=
  match result (getAllActiveStreams now w) with
  | Ret l => l
  | Throw => []
  end.

(** the messages [joinStream] and [leaveStream] build *)
Definition joinMessageOf (now : Z) (rnd streamId viewerName : string) : ChatMessage :=
  Chat.mk ("join_" ++ string_of_Z now ++ "_" ++ rnd)
          streamId "System" None (viewerName ++ " joined the stream") now TJoin.

Definition leaveMessageOf (now : Z) (rnd streamId viewerName : string) : ChatMessage :=
  Chat.mk ("leave_" ++ string_of_Z now ++ "_" ++ rnd)
          streamId "System" None (viewerName ++ " left the stream") now TLeave.


(** the three calls that write chat transcripts *)
Inductive ChatOp :=
| OpSend (now : Z) (rnd streamId sender message : string) (senderAddress : option string)
| OpJoin (now : Z) (rnd streamId viewerName : string) (viewerAddress : option string)
| OpLeave (now : Z) (rnd streamId viewerName : string).

Definition runOp (op : ChatOp) : Sync bool :=
  match op with
  | OpSend now rnd streamId sender message senderAddress =>
      sendMessage now rnd streamId sender message senderAddress
  | OpJoin now rnd streamId viewerName viewerAddress =>
      joinStream now rnd streamId viewerName viewerAddress
  | OpLeave now rnd streamId viewerName =>
      leaveStream now rnd streamId viewerName
  end.






(** What the Registry's own writes keep: every individual record sits
    under the key of its own, non-empty id; an index entry that has an
    individual record equals it; every live individual record is
    listed in the index. *)
Record wellIndexed (st : Storage) : Prop := mkWellIndexed {
  indexed_keys : forall key s,
    lookup (streamKey key) st = Some (SStream s) -> Stream.id s = key /\ key <> "";
  indexed_mirror : forall e s,
    In e (indexOf st) -> lookup (streamKey (Stream.id e)) st = Some (SStream s) -> s = e;
  indexed_live : forall s,
    held s st -> Stream.isLive s = true -> In s (indexOf st)
}.

(** under 24 hours old at time [t] *)
Definition fresh (t : Z) (s : StreamData) : Prop := t - Stream.startTime s < maxAge.

(** what the pass keeps, in a storage [ls w0] whose index mirrors its
    records, once it has walked the index entries [done]: only stream
    keys are gone, none of a live fresh record; every record collected
    is live, fresh and was stored; every id collected is the id of a
    record collected; every live fresh stored entry passed has been
    collected, and the key of every stale entry passed is gone *)
Record Inv (w0 : World) (t : Z) (done : list StreamData) (acc : Found) (w : World) : Prop := mkInv {
  inv_purged : purged (ls w0) (ls w);
  inv_survive : forall key s,
    lookup (streamKey key) (ls w0) = Some (SStream s) ->
    Stream.isLive s = true -> fresh t s ->
    lookup (streamKey key) (ls w) = Some (SStream s);
  inv_sound : forall s,
    In s (streams acc) -> Stream.isLive s = true /\ fresh t s /\ held s (ls w0);
  inv_ids : forall id,
    In id (streamIds acc) -> exists s, In s (streams acc) /\ Stream.id s = id;
  inv_done : forall e,
    In e done -> Stream.isLive e = true -> fresh t e -> held e (ls w0) -> In e (streams acc);
  inv_old : forall e,
    In e done -> ~ fresh t e -> lookup (streamKey (Stream.id e)) (ls w) = None
}.


(** the calls of the Registry that write to storage *)
Inductive Call :=
| CallCreate (now : Z) (rnd : string) (streamData : StreamData)
| CallEnd (now : Z) (streamId : string)
| CallGetAll (now : Z)
| CallChat (op : ChatOp).

Definition runCall (c : Call) (w : World) : World :=
  match c with
  | CallCreate now rnd streamData => after (createStream now rnd streamData w)
  | CallEnd now streamId => after (endStream now streamId w)
  | CallGetAll now => after (getAllActiveStreams now w)
  | CallChat op => after (runOp op w)
  end.


Fixpoint runCalls (calls : list Call) (w : World) : World :=
  match calls with
  | [] => w
  | c :: rest => runCalls rest (runCall c w)
  end.

(** an hour, in milliseconds *)
Definition hour : Z := 60 * 60 * 1000.


(** a storage after one [createStream] *)
Definition demoTime : Z := 100 * hour.

Definition demoId : string := "stream_360000000_k3x9".

Definition demoStream : StreamData :=
  Stream.mk demoId "Test" "Gaming" "chat" "0xabc" true 0 demoTime [] demoTime.

Definition demoWorld : World :=
  runCalls [CallCreate demoTime "k3x9" (sample "" true demoTime 0)] emptyWorld.



(** an index entry without individual record *)
Definition staleIndexWorld : World :=
  storageOf [(globalKey, SIndex [sample "a" true demoTime 0])].


(** a subscriber that always throws, and one that never does *)
Definition faulty : Listener := mkListener 1 (fun _ => true).

Definition quiet : Listener := mkListener 2 (fun _ => false).

Definition subscribedWorld : World :=
  after (on "newMessage" quiet (after (on "newMessage" faulty emptyWorld))).

(** ** The event hub *)

(** how many times the callback is registered in a list of subscribers *)
Definition registrations (callback : Listener) (l : list Listener) : nat :=
  List.length (filter (fun c => Nat.eqb (fid c) (fid callback)) l).

(** the subscribers that are not the callback, in their order *)
Definition otherThan (callback : Listener) (l : list Listener) : list Listener :=
  filter (fun c => negb (Nat.eqb (fid c) (fid callback))) l.

(** ** Broadcasts *)

(** the storage after [storeStreamFromBroadcast]: the stream is stored
    when it is live, has a non-empty id and nothing truthy sits under
    its key *)
Definition acceptS (stream : StreamData) (st : Storage) : Storage :=
  if Stream.isLive stream && nonEmpty (Stream.id stream)
     && negb (truthy (lookup (streamKey (Stream.id stream)) st))
  then storeStreamS stream st
  else st.

(** the storage after the streams of a [syncResponse] have been taken
    in, one after the other *)
Definition acceptAll (streams : list StreamData) (st : Storage) : Storage :=
  fold_left (fun st stream => acceptS stream st) streams st.


(** ** Viewers *)




(** ** Generated ids *)



(** ** Passes in a row *)

(** under 24 hours old at time [t], as a test *)
Definition freshB (t : Z) (s : StreamData) : bool :=
  t - Stream.startTime s <? maxAge.

(** ** Healing *)






(** ** Everything a window does *)





(** an index that lists one stream twice *)
Definition twiceListedWorld : World :=
  storageOf [(globalKey, SIndex [demoStream; demoStream]); (streamKey demoId, SStream demoStream)].

(** ** Creation *)

(** the id [createStream] generates and the record it stores *)
Definition newStreamId (now : Z) (rnd : string) : string :=
  "stream_" ++ string_of_Z now ++ "_" ++ rnd.

Definition newStream (now : Z) (rnd : string) (streamData : StreamData) : StreamData :=
  merge streamData
        (Partial.mk (Some (newStreamId now rnd)) None None None None None None None None None) now.



(** what the pass keeps in a storage [ls w0] whose records sit under
    the keys of their ids: the records collected have distinct,
    non-empty ids, all noted in [streamIds], and each was stored under
    its own key *)
Definition distinct (w0 : World) (acc : Found) (w : World) : Prop :=
  purged (ls w0) (ls w) /\
  NoDup (map Stream.id (streams acc)) /\
  forall s, In s (streams acc) ->
            In (Stream.id s) (streamIds acc) /\ Stream.id s <> "" /\
            lookup (streamKey (Stream.id s)) (ls w0) = Some (SStream s).

(** * Properties *)

(** ** Keys *)

Lemma prefix_split (p s : string) :
  String.prefix p s = true -> exists r, s = (p ++ r)%string.
Proof.
  revert s; induction p as [|c p IH]; intros s H.
  - exists s; reflexivity.
  - destruct s as [|d s]; simpl in H; [discriminate|].
    destruct (Ascii.ascii_dec c d) as [->|]; [|discriminate].
    destruct (IH _ H) as [r ->]. exists r; reflexivity.
Qed.



Lemma startsWith_inv (key : string) :
  startsWith key streamPrefix = true -> exists id, key = streamKey id.
Proof. apply prefix_split. Qed.

Lemma streamKey_inj (a b : string) : streamKey a = streamKey b -> a = b.
Proof. unfold streamKey, streamPrefix; simpl; congruence. Qed.

Lemma streamKey_chatKey (a b : string) : streamKey a <> chatKey b.
Proof. unfold streamKey, chatKey, streamPrefix, chatPrefix; simpl; congruence. Qed.

Lemma streamKey_global (a : string) : streamKey a <> globalKey.
Proof. unfold streamKey, globalKey, streamPrefix; simpl; congruence. Qed.

Lemma chatKey_global (a : string) : chatKey a <> globalKey.
Proof. unfold chatKey, globalKey, chatPrefix; simpl; congruence. Qed.


(** ** Storage *)

Lemma lookup_store_same key v st : lookup key (store key v st) = Some v.
Proof.
  induction st as [|[k v'] st IH]; simpl.
  - now rewrite String.eqb_refl.
  - destruct (String.eqb k key) eqn:E; simpl; rewrite E; auto.
Qed.

Lemma lookup_store_other key key' v st :
  key <> key' -> lookup key' (store key v st) = lookup key' st.
Proof.
  intros N; induction st as [|[k v'] st IH]; simpl.
  - destruct (String.eqb key key') eqn:E; [apply String.eqb_eq in E; contradiction|reflexivity].
  - destruct (String.eqb k key) eqn:E; simpl.
    + apply String.eqb_eq in E; subst k.
      destruct (String.eqb key key') eqn:E'; [apply String.eqb_eq in E'; contradiction|reflexivity].
    + destruct (String.eqb k key'); auto.
Qed.

Lemma lookup_remove_same key st : lookup key (remove key st) = None.
Proof.
  induction st as [|[k v] st IH]; simpl; auto.
  destruct (String.eqb k key) eqn:E; simpl; auto. now rewrite E.
Qed.

Lemma lookup_remove_other key key' st :
  key <> key' -> lookup key' (remove key st) = lookup key' st.
Proof.
  intros N; induction st as [|[k v] st IH]; simpl; auto.
  destruct (String.eqb k key) eqn:E; simpl.
  - apply String.eqb_eq in E; subst k.
    destruct (String.eqb key key') eqn:E'; [apply String.eqb_eq in E'; contradiction|assumption].
  - destruct (String.eqb k key'); auto.
Qed.

Lemma lookup_remove key key' st :
  lookup key' (remove key st) = if String.eqb key key' then None else lookup key' st.
Proof.
  destruct (String.eqb key key') eqn:E.
  - apply String.eqb_eq in E; subst; apply lookup_remove_same.
  - apply String.eqb_neq in E; now apply lookup_remove_other.
Qed.

Lemma lookup_store key key' v st :
  lookup key' (store key v st) = if String.eqb key key' then Some v else lookup key' st.
Proof.
  destruct (String.eqb key key') eqn:E.
  - apply String.eqb_eq in E; subst; apply lookup_store_same.
  - apply String.eqb_neq in E; now apply lookup_store_other.
Qed.

Lemma length_remove key st : (List.length (remove key st) <= List.length st)%nat.
Proof. apply filter_length_le. Qed.

(** ** Worlds *)

Lemma withStorage_ls w : withStorage w (ls w) = w.
Proof. now destruct w. Qed.

Lemma bind_run {A B} {m : Sync A} (k : A -> Sync B) {w a w'} :
  m w = (Ret a, w') -> bind m k w = k a w'.
Proof. intros E. unfold bind. now rewrite E. Qed.

(** ** The event hub *)

Lemma forEach_listener data (l : list Listener) w :
  foldM (fun (_ : unit) listener => tryCatch (call listener data) (ret tt)) l tt w =
  (Ret tt, mkWorld (ls w) (listeners w) (invoked w ++ map (fun l => (fid l, data)) l)%list
                   (hasChannel w) (posted w) (windowId w)).
Proof.
  revert w; induction l as [|c l IH]; intros w; simpl.
  - unfold ret. rewrite app_nil_r. now destruct w.
  - unfold bind, tryCatch, call, ret.
    destruct (throws c data); rewrite IH; simpl; now rewrite <- app_assoc.
Qed.

Lemma triggerListeners_run event data w :
  triggerListeners event data w = (Ret tt, afterTrigger event data w).
Proof. unfold triggerListeners. apply forEach_listener. Qed.

Lemma getListeners_set_same event l m : getListeners event (setListeners event l m) = Some l.
Proof.
  induction m as [|[e l'] m IH]; simpl.
  - now rewrite String.eqb_refl.
  - destruct (String.eqb e event) eqn:E; simpl; rewrite E; auto.
Qed.

Lemma setListeners_twice event l l' m :
  setListeners event l (setListeners event l' m) = setListeners event l m.
Proof.
  induction m as [|[e l0] m IH]; simpl.
  - now rewrite String.eqb_refl.
  - destruct (String.eqb e event) eqn:E; simpl; rewrite E; congruence.
Qed.

Lemma on_run event callback w :
  on event callback w =
  (Ret tt, withListeners w (setListeners event (subscribers event w ++ [callback])%list (listeners w))).
Proof.
  unfold on, subscribers.
  destruct (getListeners event (listeners w)) eqn:E; simpl.
  - now rewrite E.
  - now rewrite getListeners_set_same, setListeners_twice.
Qed.

Lemma subscribers_on event callback w :
  subscribers event (after (on event callback w)) = (subscribers event w ++ [callback])%list.
Proof.
  rewrite on_run. unfold after, subscribers; simpl. now rewrite getListeners_set_same.
Qed.

Lemma broadcastStreamEvent_run mk w :
  broadcastStreamEvent mk w = (Ret tt, afterBroadcast mk w).
Proof. unfold broadcastStreamEvent, afterBroadcast. now destruct (hasChannel w). Qed.

Lemma ls_afterBroadcast mk w : ls (afterBroadcast mk w) = ls w.
Proof. unfold afterBroadcast. now destruct (hasChannel w). Qed.

(** C9: emission reaches every subscriber of the event, in the order in
    which [on] registered them, whatever any of them throws; the
    exception of one callback is caught on the spot, so the emitting
    call returns normally; [localStorage] is not touched.  The first
    part says that [on] registers at the end of the event's list, the
    second that emission walks that list from its head. *)
Theorem triggerListeners_isolation (event : string) (data : Payload) (w : World) :
  (forall callback,
      subscribers event (after (on event callback w)) = subscribers event w ++ [callback])%list /\
  result (triggerListeners event data w) = Ret tt /\
  invoked (after (triggerListeners event data w)) =
    (invoked w ++ map (fun l => (fid l, data)) (subscribers event w))%list /\
  (forall before first between second rest,
      subscribers event w = (before ++ first :: between ++ second :: rest)%list ->
      throws first data = true ->
      In (fid second, data)
         (skipn (List.length (invoked w)) (invoked (after (triggerListeners event data w))))) /\
  ls (after (triggerListeners event data w)) = ls w.
Proof.
  rewrite triggerListeners_run; unfold result, after; simpl.
  split; [intros; apply subscribers_on|].
  repeat split.
  intros before first between second rest E _.
  rewrite skipn_app, skipn_all, Nat.sub_diag; simpl.
  rewrite E, map_app; simpl. rewrite map_app; simpl.
  apply in_or_app; right. right. apply in_or_app; right. now left.
Qed.

(** ** Chat transcripts *)

Lemma getChatMessages_run streamId w :
  getChatMessages streamId w = (Ret (chatOf streamId (ls w)), w).
Proof.
  unfold getChatMessages, chatOf, tryCatch, bind, getItem, ret.
  destruct (lookup (chatKey streamId) (ls w)) as [[]|]; reflexivity.
Qed.

Lemma sendMessage_run now rnd streamId sender message senderAddress w :
  sendMessage now rnd streamId sender message senderAddress w =
  (Ret true,
   afterTrigger "newMessage"
     (PMessage (chatMessageOf now rnd streamId sender message senderAddress))
     (withStorage w
        (appendChat streamId (chatMessageOf now rnd streamId sender message senderAddress) (ls w)))).
Proof.
  unfold sendMessage, tryCatch, bind.
  rewrite getChatMessages_run. unfold setItem.
  rewrite triggerListeners_run. reflexivity.
Qed.


Lemma sliceLast_short {A} n (l : list A) : (List.length l <= n)%nat -> sliceLast n l = l.
Proof.
  intros H; unfold sliceLast. replace (List.length l - n)%nat with 0%nat by lia. reflexivity.
Qed.





(** ** Reconciliation *)

(** *** The loops return, and the fuel of the scan is never used up *)

Lemma indexEntry_returns t acc e w :
  exists acc' w', indexEntry t acc e w = (Ret acc', w').
Proof.
  unfold indexEntry, bind, tryCatch, getItem, removeItem, parseStream, ret, throw.
  destruct (_ && _ && _ && _).
  - destruct (lookup _ _) as [[s| | | |]|]; simpl; eauto.
    destruct (Stream.isLive s); eauto.
  - destruct (_ >=? _); eauto.
Qed.


Lemma scanEntry_length t key acc w :
  (List.length (ls (snd (scanEntry t key acc w))) <= List.length (ls w))%nat.
Proof.
  unfold scanEntry, bind, tryCatch, getItem, removeItem, parseStream, ret, throw.
  destruct key as [key|]; simpl; auto.
  destruct (_ && _); simpl; auto.
  destruct (lookup _ _) as [[s| | | |]|]; simpl; auto using length_remove.
  destruct (_ && _ && _ && _); simpl; auto.
  destruct (_ || _); simpl; auto using length_remove.
Qed.

Lemma scanLoop_S fuel t i acc w :
  scanLoop (S fuel) t i acc w =
  if (i <? List.length (ls w))%nat then
    match scanEntry t (option_map fst (nth_error (ls w) i)) acc w with
    | (Ret acc', w') => scanLoop fuel t (S i) acc' w'
    | (Throw, w') => (Throw, w')
    end
  else (Ret acc, w).
Proof.
  simpl. unfold bind, lsLength, lsKey, ret.
  destruct (i <? List.length (ls w))%nat; reflexivity.
Qed.

(** Any fuel that covers the keys still ahead gives the same run: the
    loop ends on its own test [i < localStorage.length]. *)
Lemma scanLoop_fuel t fuel : forall fuel' i acc w,
  (List.length (ls w) - i <= fuel)%nat -> (List.length (ls w) - i <= fuel')%nat ->
  scanLoop fuel t i acc w = scanLoop fuel' t i acc w.
Proof.
  induction fuel as [|fuel IH]; intros fuel' i acc w H H'.
  - destruct fuel' as [|fuel']; [reflexivity|].
    rewrite scanLoop_S.
    destruct (Nat.ltb_spec i (List.length (ls w))); [lia|reflexivity].
  - destruct fuel' as [|fuel'].
    + rewrite scanLoop_S.
      destruct (Nat.ltb_spec i (List.length (ls w))); [lia|reflexivity].
    + rewrite !scanLoop_S.
      destruct (Nat.ltb_spec i (List.length (ls w))); [|reflexivity].
      pose proof (scanEntry_length t (option_map fst (nth_error (ls w) i)) acc w) as L.
      destruct (scanEntry t _ acc w) as [[acc'|] w']; simpl in L; [|reflexivity].
      apply IH; lia.
Qed.

(** [method2] starts the loop with as much fuel as there are keys; any
    larger amount runs the same. *)
Lemma method2_fuel t acc w fuel :
  (List.length (ls w) <= fuel)%nat -> method2 t acc w = scanLoop fuel t 0 acc w.
Proof.
  intros H. unfold method2, bind, lsLength. apply scanLoop_fuel; lia.
Qed.

(** *** Loop rules *)

Lemma foldM_inv {A B} (f : A -> B -> Sync A) (P : list B -> A -> World -> Prop) (l : list B) :
  (forall done b a w, In b l -> P done a w ->
     exists a' w', f a b w = (Ret a', w') /\ P (done ++ [b])%list a' w') ->
  forall done a w, P done a w ->
  exists a' w', foldM f l a w = (Ret a', w') /\ P (done ++ l)%list a' w'.
Proof.
  induction l as [|b l IH]; intros step done a w H; simpl.
  - exists a, w. rewrite app_nil_r. auto.
  - destruct (step done b a w (or_introl eq_refl) H) as (a' & w' & E & H').
    unfold bind. rewrite E.
    destruct (IH (fun d b0 a0 w0 I => step d b0 a0 w0 (or_intror I)) _ _ _ H')
      as (a'' & w'' & E' & H'').
    exists a'', w''. rewrite <- app_assoc in H''. auto.
Qed.

Lemma scanLoop_inv (P : Found -> World -> Prop) t :
  (forall key acc w, P acc w ->
     exists acc' w', scanEntry t key acc w = (Ret acc', w') /\ P acc' w') ->
  forall fuel i acc w, P acc w ->
  exists acc' w', scanLoop fuel t i acc w = (Ret acc', w') /\ P acc' w'.
Proof.
  intros step; induction fuel as [|fuel IH]; intros i acc w H.
  - exists acc, w; auto.
  - rewrite scanLoop_S.
    destruct (i <? List.length (ls w))%nat; [|exists acc, w; auto].
    destruct (step (option_map fst (nth_error (ls w) i)) acc w H) as (acc' & w' & E & H').
    rewrite E. apply IH, H'.
Qed.

(** *** What the pass does to storage, and what it may return *)

Lemma purged_refl st : purged st st.
Proof. intros k; auto. Qed.

Lemma purged_remove st0 st id :
  purged st0 st -> purged st0 (remove (streamKey id) st).
Proof.
  intros H k. rewrite lookup_remove.
  destruct (String.eqb (streamKey id) k) eqn:E; [|apply H].
  apply String.eqb_eq in E. right; split; eauto.
Qed.

Lemma purged_trans st0 st1 st2 : purged st0 st1 -> purged st1 st2 -> purged st0 st2.
Proof.
  intros H1 H2 k. destruct (H2 k) as [E|[E I]]; [rewrite E; apply H1|auto].
Qed.

Lemma purged_found st0 st key v :
  purged st0 st -> lookup key st = Some v -> lookup key st0 = Some v.
Proof. intros H E. destruct (H key) as [E'|[E' _]]; congruence. Qed.

Lemma Sound_remove w0 acc w id :
  Sound w0 acc w -> Sound w0 acc (withStorage w (remove (streamKey id) (ls w))).
Proof.
  intros [F P S]; split; simpl; auto.
  - rewrite F; reflexivity.
  - now apply purged_remove.
Qed.

Lemma Sound_push w0 acc w s id key :
  Sound w0 acc w -> Stream.isLive s = true -> lookup (streamKey key) (ls w) = Some (SStream s) ->
  Sound w0 (push acc s id) w.
Proof.
  intros [F P S] L E; split; simpl; auto.
  intros s' I. apply in_app_or in I as [I|[<-|[]]]; auto.
  split; auto. exists key. eapply purged_found; eauto.
Qed.

Lemma indexEntry_sound w0 t acc e w :
  Sound w0 acc w -> exists acc' w', indexEntry t acc e w = (Ret acc', w') /\ Sound w0 acc' w'.
Proof.
  intros H.
  unfold indexEntry, bind, tryCatch, getItem, removeItem, parseStream, ret, throw.
  destruct (_ && _ && _ && _).
  - destruct (lookup _ _) as [[s| | | |]|] eqn:E; simpl; eauto using Sound_remove.
    destruct (Stream.isLive s) eqn:L; eauto using Sound_push.
  - destruct (_ >=? _); eauto using Sound_remove.
Qed.

Lemma scanEntry_sound w0 t key acc w :
  Sound w0 acc w -> exists acc' w', scanEntry t key acc w = (Ret acc', w') /\ Sound w0 acc' w'.
Proof.
  intros H.
  unfold scanEntry, bind, tryCatch, getItem, removeItem, parseStream, ret, throw.
  destruct key as [key|]; eauto.
  destruct (nonEmpty key && startsWith key streamPrefix) eqn:K; eauto.
  apply andb_true_iff in K as [_ K]. apply startsWith_inv in K as [id ->].
  destruct (lookup _ _) as [[s| | | |]|] eqn:E; simpl; eauto using Sound_remove.
  destruct (_ && _ && _ && _) eqn:C.
  - repeat (apply andb_true_iff in C as [C ?]). eauto using Sound_push.
  - destruct (_ || _); eauto using Sound_remove.
Qed.

Lemma foldM_indexEntry_returns t l : forall acc w,
  exists acc' w', foldM (indexEntry t) l acc w = (Ret acc', w').
Proof.
  induction l as [|e l IH]; intros acc w; simpl.
  - unfold ret; eauto.
  - unfold bind. destruct (indexEntry_returns t acc e w) as (acc' & w' & ->). apply IH.
Qed.

Lemma method1_fold t acc w :
  method1 t acc w = foldM (indexEntry t) (indexOf (ls w)) acc w.
Proof.
  unfold method1, indexOf, bind, getItem, tryCatch, parseIndex, ret, throw.
  destruct (lookup globalKey (ls w)) as [[s|l| | |]|]; simpl; try reflexivity.
  destruct (foldM_indexEntry_returns t l acc w) as (acc' & w' & ->). reflexivity.
Qed.

Lemma getAll_phases t w acc1 w1 acc2 w2 :
  foldM (indexEntry t) (indexOf (ls w)) emptyFound w = (Ret acc1, w1) ->
  scanLoop (List.length (ls w1)) t 0 acc1 w1 = (Ret acc2, w2) ->
  getAllStreamsFromStorage t w =
  (Ret (filter Stream.isLive (streams acc2)),
   withStorage w2 (store globalKey (SIndex (filter Stream.isLive (streams acc2))) (ls w2))).
Proof.
  intros E1 E2.
  unfold getAllStreamsFromStorage, bind, tryCatch.
  rewrite method1_fold, E1. unfold method2, bind, lsLength. rewrite E2.
  reflexivity.
Qed.

Lemma filter_all {A} (f : A -> bool) l : (forall x, In x l -> f x = true) -> filter f l = l.
Proof.
  induction l as [|x l IH]; intros H; simpl; auto.
  rewrite (H x (or_introl eq_refl)), IH; auto. intros; apply H; now right.
Qed.

(** The pass returns; what it returns are live records held under
    individual keys when it started; it leaves the storage it found,
    less some individual stream keys, with the index rewritten to the
    list it returns; nothing else of the world changes. *)
Lemma getAll_sound t w :
  exists res st1,
    getAllStreamsFromStorage t w = (Ret res, withStorage w (store globalKey (SIndex res) st1)) /\
    purged (ls w) st1 /\
    forall s, In s res -> Stream.isLive s = true /\ held s (ls w).
Proof.
  destruct (@foldM_inv _ _ (indexEntry t) (fun _ => Sound w) (indexOf (ls w))
              (fun _ e acc w' _ => @indexEntry_sound w t acc e w') [] emptyFound w)
    as (acc1 & w1 & E1 & S1).
  { split; simpl; auto using purged_refl; [now rewrite withStorage_ls|intros ? []]. }
  destruct (@scanLoop_inv (Sound w) t (fun key acc w' => @scanEntry_sound w t key acc w')
              (List.length (ls w1)) 0%nat acc1 w1 S1) as (acc2 & w2 & E2 & [F P S]).
  rewrite (getAll_phases _ _ _ _ _ _ E1 E2).
  rewrite (filter_all Stream.isLive (streams acc2)) by (intros; now apply S).
  exists (streams acc2), (ls w2). repeat split; try apply S; auto.
  rewrite F at 1. reflexivity.
Qed.

Lemma getAll_returns t w : exists res w', getAllStreamsFromStorage t w = (Ret res, w').
Proof. destruct (getAll_sound t w) as (res & st1 & E & _). eauto. Qed.

(** ** Stores the Registry writes *)





Lemma noRecord_absent id st :
  keyConsistent st ->
  (forall s, lookup (streamKey id) st <> Some (SStream s)) -> noRecord id st.
Proof.
  intros K A s [k E] <-. pose proof (K _ _ E) as <-. exact (A _ E).
Qed.



(** ** Writes, as functions of the storage *)

Lemma storeStream_run s w :
  storeStream s w = (Ret tt, withStorage w (storeStreamS s (ls w))).
Proof.
  unfold storeStream, storeStreamS, indexOf, tryCatch, bind, setItem, getItem, parseIndex, ret, throw.
  simpl.
  destruct (lookup globalKey _) as [[s'|l| | |]|]; simpl; reflexivity.
Qed.

Lemma updateStream_run now streamId updates w :
  updateStream now streamId updates w =
  match lookup (streamKey streamId) (ls w) with
  | Some (SStream s) =>
      (Ret true,
       afterTrigger "streamUpdated" (PStream (merge s updates now))
         (withStorage w (storeStreamS (merge s updates now) (ls w))))
  | _ => (Ret false, w)
  end.
Proof.
  unfold updateStream, tryCatch, bind, getItem, parseStream, ret, throw.
  destruct (lookup _ _) as [[s|l| | |]|]; simpl; try reflexivity.
  rewrite storeStream_run, triggerListeners_run. reflexivity.
Qed.

Lemma updateStream_ls now streamId updates w :
  (exists b, result (updateStream now streamId updates w) = Ret b) /\
  ls (after (updateStream now streamId updates w)) = updateS now streamId updates (ls w).
Proof.
  rewrite updateStream_run. unfold updateS.
  destruct (lookup _ _) as [[s|l| | |]|]; simpl; eauto.
Qed.

Lemma updateStream_returns now streamId updates w :
  exists b, updateStream now streamId updates w =
            (Ret b, after (updateStream now streamId updates w)).
Proof.
  rewrite updateStream_run.
  destruct (lookup _ _) as [[s|l| | |]|]; simpl; eauto.
Qed.

Lemma endStream_run now streamId w :
  let w1 := after (updateStream now streamId (setIsLive false) w) in
  endStream now streamId w =
  (Ret tt,
   afterBroadcast (BStreamEnded streamId)
     (afterTrigger "streamEnded" (PStreamId streamId)
        (withStorage w1
           (remove (chatKey streamId) (remove (streamKey streamId) (unlist streamId (ls w1))))))).
Proof.
  intros w1. unfold endStream, tryCatch. unfold bind at 1.
  destruct (updateStream_returns now streamId (setIsLive false) w) as [b ->]. fold w1.
  unfold unlist, bind, getItem, tryCatch, parseIndex, setItem, removeItem, ret, throw.
  destruct (lookup globalKey (ls w1)) as [[s|l| | |]|]; simpl;
    rewrite triggerListeners_run, broadcastStreamEvent_run; reflexivity.
Qed.

Lemma endStream_ls now streamId w :
  result (endStream now streamId w) = Ret tt /\
  ls (after (endStream now streamId w)) = endS now streamId (ls w).
Proof.
  rewrite endStream_run. unfold result, after at 1; simpl. split; auto.
  rewrite ls_afterBroadcast; simpl.
  destruct (updateStream_ls now streamId (setIsLive false) w) as [_ ->]. reflexivity.
Qed.

Lemma removeStreamFromBroadcast_run streamId w :
  removeStreamFromBroadcast streamId w = (Ret tt, withStorage w (removeS streamId (ls w))).
Proof.
  unfold removeStreamFromBroadcast, removeS, unlist, tryCatch, bind, getItem, parseIndex,
    setItem, removeItem, ret, throw; simpl.
  destruct (lookup globalKey _) as [[s|l| | |]|]; reflexivity.
Qed.

Lemma storeStreamFromBroadcast_run stream w :
  storeStreamFromBroadcast stream w =
  if Stream.isLive stream && nonEmpty (Stream.id stream)
     && negb (truthy (lookup (streamKey (Stream.id stream)) (ls w)))
  then storeStream stream w
  else (Ret tt, w).
Proof.
  unfold storeStreamFromBroadcast, tryCatch, bind, getItem, ret.
  destruct (Stream.isLive stream && nonEmpty (Stream.id stream)); simpl; auto.
  destruct (truthy _); simpl; auto.
  rewrite storeStream_run. reflexivity.
Qed.

(** *** After [endStream] *)

Lemma indexOf_store_other key v st :
  key <> globalKey -> indexOf (store key v st) = indexOf st.
Proof. intros N. unfold indexOf. now rewrite lookup_store_other. Qed.

Lemma indexOf_remove_other key st :
  key <> globalKey -> indexOf (remove key st) = indexOf st.
Proof. intros N. unfold indexOf. now rewrite lookup_remove_other. Qed.

Lemma indexOf_unlist streamId st :
  indexOf (unlist streamId st) = filter (notId streamId) (indexOf st).
Proof.
  unfold unlist, indexOf.
  destruct (lookup globalKey st) as [[s|l| | |]|] eqn:E; try rewrite E; auto.
  now rewrite lookup_store_same.
Qed.





Lemma endS_stream_absent now id st : lookup (streamKey id) (endS now id st) = None.
Proof.
  unfold endS. rewrite lookup_remove_other by (intros E; symmetry in E; now apply streamKey_chatKey in E).
  apply lookup_remove_same.
Qed.

Lemma endS_chat_absent now id st : lookup (chatKey id) (endS now id st) = None.
Proof. unfold endS. apply lookup_remove_same. Qed.

Lemma endS_index now id st :
  forall e, In e (indexOf (endS now id st)) -> Stream.id e <> id.
Proof.
  intros e. unfold endS.
  rewrite !indexOf_remove_other, indexOf_unlist
    by (try apply chatKey_global; try apply streamKey_global).
  intros I%filter_In. destruct I as [_ N]. unfold notId in N.
  now apply negb_true_iff, String.eqb_neq in N.
Qed.



Lemma getAll_noRecord t w id :
  noRecord id (ls w) ->
  exists res, result (getAllActiveStreams t w) = Ret res /\
              (forall s, In s res -> Stream.id s <> id) /\
              lookup globalKey (ls (after (getAllActiveStreams t w))) = Some (SIndex res).
Proof.
  intros N. unfold getAllActiveStreams.
  destruct (getAll_sound t w) as (res & st1 & -> & P & S). unfold result, after; simpl.
  exists res; repeat split.
  - intros s I. apply N. now apply S.
  - apply lookup_store_same.
Qed.

(** C5: in a storage where each individual record sits under the key of
    its own id, when the global index lists an id under whose key no
    individual record is held, [getAllActiveStreams()] returns normally
    a list without that id, and the global index it leaves is that very
    list, hence without the id. *)
Theorem index_self_healing (w : World) (now : Z) (entry : StreamData) :
  keyConsistent (ls w) ->
  In entry (indexOf (ls w)) ->
  (forall s, lookup (streamKey (Stream.id entry)) (ls w) <> Some (SStream s)) ->
  exists res,
    result (getAllActiveStreams now w) = Ret res /\
    (forall s, In s res -> Stream.id s <> Stream.id entry) /\
    lookup globalKey (ls (after (getAllActiveStreams now w))) = Some (SIndex res) /\
    forall e, In e (indexOf (ls (after (getAllActiveStreams now w)))) ->
              Stream.id e <> Stream.id entry.
Proof.
  intros K _ A.
  destruct (getAll_noRecord now w _ (noRecord_absent _ _ K A)) as (res & R & H & G).
  exists res; repeat split; auto.
  unfold indexOf. rewrite G. exact H.
Qed.

(** ** Joining and leaving *)

Lemma getAll_eq now w :
  getAllActiveStreams now w = (Ret (activeStreams now w), after (getAllActiveStreams now w)).
Proof.
  unfold activeStreams, getAllActiveStreams.
  destruct (getAll_returns now w) as (res & w' & ->). reflexivity.
Qed.

Lemma joinStream_ls now rnd streamId viewerName viewerAddress w :
  let w1 := after (getAllActiveStreams now w) in
  match find (hasId streamId) (activeStreams now w) with
  | Some stream =>
      result (joinStream now rnd streamId viewerName viewerAddress w) = Ret true /\
      ls (after (joinStream now rnd streamId viewerName viewerAddress w)) =
        appendChat streamId (joinMessageOf now rnd streamId viewerName)
          (updateS now streamId (setViewerCount (Stream.viewerCount stream + 1)) (ls w1))
  | None => joinStream now rnd streamId viewerName viewerAddress w = (Ret false, w1)
  end.
Proof.
  intros w1. unfold joinStream. rewrite (bind_run _ (getAll_eq now w)). fold w1.
  destruct (find _ _) as [stream|]; [|reflexivity].
  destruct (updateStream_returns now streamId
              (setViewerCount (Stream.viewerCount stream + 1)) w1) as [b E].
  rewrite (bind_run _ E), (bind_run _ (getChatMessages_run _ _)).
  unfold bind, setItem. rewrite !triggerListeners_run. unfold result, after at 1; simpl.
  split; auto.
  destruct (updateStream_ls now streamId
              (setViewerCount (Stream.viewerCount stream + 1)) w1) as [_ ->].
  reflexivity.
Qed.

Lemma leaveStream_ls now rnd streamId viewerName w :
  let w1 := after (getAllActiveStreams now w) in
  match find (hasId streamId) (activeStreams now w) with
  | Some stream =>
      result (leaveStream now rnd streamId viewerName w) = Ret true /\
      ls (after (leaveStream now rnd streamId viewerName w)) =
        appendChat streamId (leaveMessageOf now rnd streamId viewerName)
          (updateS now streamId (setViewerCount (Z.max 0 (Stream.viewerCount stream - 1))) (ls w1))
  | None => leaveStream now rnd streamId viewerName w = (Ret false, w1)
  end.
Proof.
  intros w1. unfold leaveStream. rewrite (bind_run _ (getAll_eq now w)). fold w1.
  destruct (find _ _) as [stream|]; [|reflexivity].
  destruct (updateStream_returns now streamId
              (setViewerCount (Z.max 0 (Stream.viewerCount stream - 1))) w1) as [b E].
  rewrite (bind_run _ E), (bind_run _ (getChatMessages_run _ _)).
  unfold bind, setItem. rewrite !triggerListeners_run. unfold result, after at 1; simpl.
  split; auto.
  destruct (updateStream_ls now streamId
              (setViewerCount (Z.max 0 (Stream.viewerCount stream - 1))) w1) as [_ ->].
  reflexivity.
Qed.

Lemma getAll_frame now w :
  let w1 := after (getAllActiveStreams now w) in
  (forall id, lookup (chatKey id) (ls w1) = lookup (chatKey id) (ls w)) /\
  (forall id v, lookup (streamKey id) (ls w1) = Some v -> lookup (streamKey id) (ls w) = Some v) /\
  lookup globalKey (ls w1) = Some (SIndex (activeStreams now w)) /\
  listeners w1 = listeners w /\ invoked w1 = invoked w /\ posted w1 = posted w.
Proof.
  unfold activeStreams, getAllActiveStreams.
  destruct (getAll_sound now w) as (res & st1 & -> & P & _). unfold result, after; simpl.
  split; [|split; [|split]]; auto using lookup_store_same.
  - intros id. rewrite lookup_store_other by (intros E; symmetry in E; now apply chatKey_global in E).
    destruct (P (chatKey id)) as [E|[_ [k E]]]; auto.
    symmetry in E. now apply streamKey_chatKey in E.
  - intros id v. rewrite lookup_store_other by (intros E; symmetry in E; now apply streamKey_global in E).
    now apply purged_found.
Qed.

(** ** Broadcasts against local calls *)









(** ** Undecodable values *)





(** Method 1 on an index entry whose individual value does not decode *)

Section GarbageUnderIndex.
Variables (w0 : World) (t : Z) (entry : StreamData).
Hypothesis garbage : lookup (streamKey (Stream.id entry)) (ls w0) = Some SGarbage.
Hypothesis live : Stream.isLive entry = true.
Hypothesis named : Stream.id entry <> "".
Hypothesis young : t - Stream.startTime entry < maxAge.


End GarbageUnderIndex.



(** ** The transcript cap *)












(** ** Stores whose index mirrors their records *)

Lemma wellIndexed_empty : wellIndexed [].
Proof.
  split; simpl; try discriminate.
  intros s [id E]. discriminate.
Qed.

Lemma wellIndexed_keyConsistent st : wellIndexed st -> keyConsistent st.
Proof. intros W key s E. now apply (indexed_keys _ W). Qed.

Lemma indexOf_storeStreamS s st :
  indexOf (storeStreamS s st) =
  (if Stream.isLive s
   then filter (notId (Stream.id s)) (indexOf st) ++ [s]
   else filter (notId (Stream.id s)) (indexOf st))%list.
Proof.
  unfold storeStreamS. unfold indexOf at 1. rewrite lookup_store_same.
  now rewrite indexOf_store_other by apply streamKey_global.
Qed.

Lemma lookup_storeStreamS key s st :
  lookup (streamKey key) (storeStreamS s st) =
  if String.eqb (Stream.id s) key then Some (SStream s) else lookup (streamKey key) st.
Proof.
  unfold storeStreamS.
  rewrite lookup_store_other by (intros E; symmetry in E; now apply streamKey_global in E).
  rewrite lookup_store.
  destruct (String.eqb (Stream.id s) key) eqn:E.
  - apply String.eqb_eq in E; subst. now rewrite String.eqb_refl.
  - destruct (String.eqb (streamKey _) _) eqn:E'; auto.
    apply String.eqb_eq, streamKey_inj in E'. apply String.eqb_neq in E. contradiction.
Qed.

(** a local persist of a stream with a non-empty id keeps the index
    mirroring the records *)
Lemma wellIndexed_storeStreamS s st :
  Stream.id s <> "" -> wellIndexed st -> wellIndexed (storeStreamS s st).
Proof.
  intros N [K M L]. split.
  - intros key r. rewrite lookup_storeStreamS.
    destruct (String.eqb _ _) eqn:E; [|apply K].
    apply String.eqb_eq in E. intros [= <-]. subst; auto.
  - intros e r. rewrite indexOf_storeStreamS, lookup_storeStreamS.
    destruct (String.eqb _ _) eqn:E.
    + apply String.eqb_eq in E. intros I [= <-].
      destruct (Stream.isLive s); [apply in_app_or in I as [I|[<-|[]]]|]; auto;
        apply filter_In in I as [_ I]; unfold notId in I;
        apply negb_true_iff, String.eqb_neq in I; congruence.
    + intros I. apply M.
      destruct (Stream.isLive s); [apply in_app_or in I as [I|[<-|[]]]|].
      * now apply filter_In in I.
      * now rewrite String.eqb_refl in E.
      * now apply filter_In in I.
  - intros r [key H] V. rewrite lookup_storeStreamS in H. rewrite indexOf_storeStreamS.
    destruct (String.eqb _ _) eqn:E.
    + injection H as <-. rewrite V. apply in_or_app; right; now left.
    + assert (I : In r (filter (notId (Stream.id s)) (indexOf st))).
      { apply filter_In; split; [apply L; [now exists key|assumption]|].
        unfold notId. destruct (K _ _ H) as [-> _]. apply negb_true_iff.
        apply String.eqb_neq. apply String.eqb_neq in E. congruence. }
      destruct (Stream.isLive s); [apply in_or_app; now left|assumption].
Qed.

Section Mirrored.
Variables (w0 : World) (t : Z).
Hypothesis WI : wellIndexed (ls w0).

Lemma held_own_key s :
  held s (ls w0) ->
  lookup (streamKey (Stream.id s)) (ls w0) = Some (SStream s) /\ Stream.id s <> "".
Proof.
  intros [key E]. destruct (indexed_keys _ WI _ _ E) as [I N]. subst key. auto.
Qed.

Lemma Inv_start : Inv w0 t [] emptyFound w0.
Proof.
  split; simpl; auto using purged_refl; try (intros ? []).
Qed.

Lemma Inv_drop done acc w key :
  Inv w0 t done acc w ->
  (forall s, lookup (streamKey key) (ls w0) = Some (SStream s) ->
             Stream.isLive s = true -> fresh t s -> False) ->
  Inv w0 t done acc (withStorage w (remove (streamKey key) (ls w))).
Proof.
  intros [P S B I D O] N. split; simpl; auto using purged_remove.
  - intros k s E L Y. rewrite lookup_remove.
    destruct (String.eqb _ _) eqn:Q; [|now apply S].
    apply String.eqb_eq, streamKey_inj in Q. subst k. destruct (N s E L Y).
  - intros e V Y. rewrite lookup_remove. destruct (String.eqb _ _); auto.
Qed.

Lemma Inv_push done acc w s :
  Inv w0 t done acc w -> Stream.isLive s = true -> fresh t s -> held s (ls w0) ->
  Inv w0 t done (push acc s (Stream.id s)) w.
Proof.
  intros [P S B I D O] L Y H. split; simpl; auto.
  - intros s' [V|[<-|[]]]%in_app_or; auto.
  - intros id [<-|V].
    + exists s. split; auto. apply in_or_app; right; now left.
    + destruct (I id V) as (s' & V' & E). exists s'. split; auto. apply in_or_app; now left.
  - intros e V L' Y' H'. apply in_or_app; left. now apply D.
Qed.

Lemma Inv_next done acc w e :
  Inv w0 t done acc w ->
  (Stream.isLive e = true -> fresh t e -> held e (ls w0) -> In e (streams acc)) ->
  (~ fresh t e -> lookup (streamKey (Stream.id e)) (ls w) = None) ->
  Inv w0 t (done ++ [e]) acc w.
Proof.
  intros [P S B I D O] N N'. split; auto.
  - intros e' [V|[<-|[]]]%in_app_or; auto.
  - intros e' [V|[<-|[]]]%in_app_or; auto.
Qed.

Lemma Inv_has acc w done e :
  Inv w0 t done acc w -> has (Stream.id e) (streamIds acc) = true ->
  held e (ls w0) -> In e (streams acc).
Proof.
  intros [P S B I D O] H V. unfold has in H.
  apply existsb_exists in H as (id & H & E). apply String.eqb_eq in E; subst id.
  destruct (I _ H) as (s & Vs & E).
  destruct (B _ Vs) as (_ & _ & Hs).
  apply held_own_key in Hs as [Hs _]. apply held_own_key in V as [V _].
  rewrite E in Hs. assert (s = e) by congruence. now subst.
Qed.

Lemma indexEntry_mirrored done acc e w :
  In e (indexOf (ls w0)) -> Inv w0 t done acc w ->
  exists acc' w', indexEntry t acc e w = (Ret acc', w') /\ Inv w0 t (done ++ [e]) acc' w'.
Proof.
  intros V H.
  pose proof (inv_purged _ _ _ _ _ H) as P. pose proof (inv_survive _ _ _ _ _ H) as S.
  unfold indexEntry, bind, tryCatch, getItem, removeItem, parseStream, ret, throw.
  destruct (_ && _ && _ && _) eqn:C.
  - apply andb_true_iff in C as [C Y]. apply andb_true_iff in C as [C _].
    apply andb_true_iff in C as [L _]. apply Z.ltb_lt in Y.
    assert (Own : forall v, lookup (streamKey (Stream.id e)) (ls w) = v ->
                            (forall s, v <> Some (SStream s)) ->
                            held e (ls w0) -> False).
    { intros v E N He. apply held_own_key in He as [He _].
      apply (N e). rewrite <- E. now apply S. }
    assert (Stale : ~ fresh t e -> forall st, lookup (streamKey (Stream.id e)) st = None)
      by (intros F; destruct F; exact Y).
    destruct (lookup (streamKey (Stream.id e)) (ls w)) as [v|] eqn:E; simpl.
    2:{ exists acc, w. split; [reflexivity|]. apply Inv_next; [exact H| |auto].
        intros _ _ He. exfalso. apply (Own None eq_refl); [discriminate|assumption]. }
    pose proof (purged_found _ _ _ _ P E) as E0.
    destruct v as [s| | | |]; simpl.
    + pose proof (indexed_mirror _ WI _ _ V E0) as ->.
      rewrite L. do 2 eexists; split; [reflexivity|].
      apply Inv_next; [|intros; apply in_or_app; right; now left|auto].
      apply Inv_push; auto. now exists (Stream.id e).
    + do 2 eexists; split; [reflexivity|]. apply Inv_next; [| |auto].
      * apply Inv_drop; auto. intros s Es. congruence.
      * intros _ _ He. exfalso. eapply Own; eauto. discriminate.
    + do 2 eexists; split; [reflexivity|]. apply Inv_next; [| |auto].
      * apply Inv_drop; auto. intros s Es. congruence.
      * intros _ _ He. exfalso. eapply Own; eauto. discriminate.
    + exists acc, w. split; [reflexivity|]. apply Inv_next; [exact H| |auto].
      intros _ _ He. exfalso. eapply Own; eauto. discriminate.
    + do 2 eexists; split; [reflexivity|]. apply Inv_next; [| |auto].
      * apply Inv_drop; auto. intros s Es. congruence.
      * intros _ _ He. exfalso. eapply Own; eauto. discriminate.
  - destruct (_ >=? _) eqn:A.
    + apply Z.geb_le in A.
      do 2 eexists; split; [reflexivity|]. apply Inv_next.
      * apply Inv_drop; auto. intros s Es _ Y.
        pose proof (indexed_mirror _ WI _ _ V Es) as ->. unfold fresh in Y. lia.
      * intros _ Y _. unfold fresh in Y. lia.
      * intros _. simpl. apply lookup_remove_same.
    + exists acc, w. split; [reflexivity|].
      assert (Y : fresh t e).
      { unfold fresh. destruct (Z.geb_spec (t - Stream.startTime e) maxAge);
          [discriminate|lia]. }
      apply Inv_next; [exact H| |intros F; destruct F; exact Y].
      intros L _ He. apply (Inv_has acc w done e H); auto.
      destruct (has _ _); auto. exfalso.
      apply held_own_key in He as [_ N]. apply String.eqb_neq in N.
      unfold nonEmpty in C. rewrite L, N in C. simpl in C.
      apply Z.ltb_ge in C. unfold fresh in Y. lia.
Qed.

Lemma scanEntry_mirrored done key acc w :
  Inv w0 t done acc w ->
  exists acc' w', scanEntry t key acc w = (Ret acc', w') /\ Inv w0 t done acc' w'.
Proof.
  intros H.
  pose proof (inv_purged _ _ _ _ _ H) as P. pose proof (inv_survive _ _ _ _ _ H) as S.
  unfold scanEntry, bind, tryCatch, getItem, removeItem, parseStream, ret, throw.
  destruct key as [key|]; eauto.
  destruct (nonEmpty key && startsWith key streamPrefix) eqn:K; eauto.
  apply andb_true_iff in K as [_ K]. apply startsWith_inv in K as [id ->].
  destruct (lookup (streamKey id) (ls w)) as [v|] eqn:E; simpl; eauto.
  pose proof (purged_found _ _ _ _ P E) as E0.
  destruct v as [s| | | |]; simpl; eauto;
    try (do 2 eexists; split; [reflexivity|]; apply Inv_drop; auto; intros s Es; congruence).
  destruct (_ && _ && _ && _) eqn:C.
  - apply andb_true_iff in C as [C Y]. apply andb_true_iff in C as [C _].
    apply andb_true_iff in C as [L _]. apply Z.ltb_lt in Y.
    do 2 eexists; split; [reflexivity|]. apply Inv_push; auto. now exists id.
  - destruct (_ || _) eqn:O; eauto.
    do 2 eexists; split; [reflexivity|]. apply Inv_drop; auto.
    intros s' Es L Y. assert (s' = s) by congruence. subst s'.
    rewrite L in O. simpl in O. apply Z.geb_le in O. unfold fresh in Y. lia.
Qed.

(** the pass on a store whose index mirrors its records *)
Lemma getAll_mirrored :
  exists res w1,
    getAllActiveStreams t w0 = (Ret res, w1) /\
    (forall s, In s res <-> held s (ls w0) /\ Stream.isLive s = true /\ fresh t s) /\
    (forall key s, lookup (streamKey key) (ls w0) = Some (SStream s) ->
                   Stream.isLive s = true -> fresh t s ->
                   lookup (streamKey key) (ls w1) = Some (SStream s)) /\
    (forall s, held s (ls w1) -> Stream.isLive s = true -> fresh t s) /\
    exists st, ls w1 = store globalKey (SIndex res) st /\ purged (ls w0) st.
Proof.
  destruct (@foldM_inv _ _ (indexEntry t) (Inv w0 t) (indexOf (ls w0))
              (fun done e acc w V => indexEntry_mirrored done acc e w V) [] emptyFound w0 Inv_start)
    as (acc1 & w1 & E1 & I1).
  simpl in I1.
  destruct (scanLoop_inv (Inv w0 t (indexOf (ls w0))) t
              (fun key acc w => scanEntry_mirrored (indexOf (ls w0)) key acc w)
              (List.length (ls w1)) 0%nat acc1 w1 I1) as (acc2 & w2 & E2 & [P S B I D O]).
  unfold getAllActiveStreams. rewrite (getAll_phases _ _ _ _ _ _ E1 E2).
  rewrite (filter_all Stream.isLive (streams acc2)) by (intros; now apply B).
  do 2 eexists; split; [reflexivity|]. split; [|split; [|split]].
  - intros s; split.
    + intros V. destruct (B s V) as (L & Y & Hs). auto.
    + intros (Hs & L & Y). apply D; auto. now apply (indexed_live _ WI).
  - intros key s E L Y. simpl.
    rewrite lookup_store_other by (intros Q; symmetry in Q; now apply streamKey_global in Q).
    now apply S.
  - intros s [key E] L. simpl in E.
    rewrite lookup_store_other in E by (intros Q; symmetry in Q; now apply streamKey_global in Q).
    pose proof (purged_found _ _ _ _ P E) as E0.
    destruct (indexed_keys _ WI _ _ E0) as [Q _]. subst key.
    destruct (Z.ltb_spec (t - Stream.startTime s) maxAge) as [Y|Y]; [exact Y|].
    assert (V : In s (indexOf (ls w0))) by (apply (indexed_live _ WI); [now exists (Stream.id s)|exact L]).
    rewrite (O s V) in E; [discriminate|]. unfold fresh. lia.
  - exists (ls w2). split; [reflexivity|exact P].
Qed.
End Mirrored.

(** *** The Registry's calls keep the index mirroring the records *)

Lemma wellIndexed_getAll now w :
  wellIndexed (ls w) -> wellIndexed (ls (after (getAllActiveStreams now w))).
Proof.
  intros W.
  destruct (getAll_mirrored w now W) as (res & w1 & E & V & S & F & st & Els & P).
  rewrite E. unfold after; simpl.
  assert (G : indexOf (ls w1) = res) by (rewrite Els; unfold indexOf; now rewrite lookup_store_same).
  assert (K : forall key v, lookup (streamKey key) (ls w1) = Some v ->
                            lookup (streamKey key) (ls w) = Some v).
  { intros key v. rewrite Els.
    rewrite lookup_store_other by (intros Q; symmetry in Q; now apply streamKey_global in Q).
    now apply purged_found. }
  split.
  - intros key s H. apply (indexed_keys _ W). now apply K.
  - intros e s I H. rewrite G in I. apply V in I as ([key He] & L & Y).
    destruct (indexed_keys _ W _ _ He) as [Q _]. subst key.
    rewrite (S _ _ He L Y) in H. congruence.
  - intros s H L. rewrite G. apply V. split; [|split; auto].
    destruct H as [key H]. exists key. now apply K.
Qed.

Lemma wellIndexed_shrink st st' :
  wellIndexed st ->
  (forall key v, lookup (streamKey key) st' = Some v -> lookup (streamKey key) st = Some v) ->
  (forall e, In e (indexOf st') -> In e (indexOf st)) ->
  (forall s, held s st' -> Stream.isLive s = true -> In s (indexOf st')) ->
  wellIndexed st'.
Proof.
  intros [K M L] A B C.
  split; [intros key s H; apply K; now apply A|intros e s I H; apply M; auto|exact C].
Qed.

Lemma wellIndexed_appendChat streamId m st :
  wellIndexed st -> wellIndexed (appendChat streamId m st).
Proof.
  intros W. unfold appendChat.
  assert (K : forall key, lookup (streamKey key) (store (chatKey streamId)
                (SChat (sliceLast 100 (chatOf streamId st ++ [m]))) st) = lookup (streamKey key) st).
  { intros key. apply lookup_store_other. intros Q; symmetry in Q; now apply streamKey_chatKey in Q. }
  apply wellIndexed_shrink with st; auto.
  - intros key v. now rewrite K.
  - intros e. now rewrite indexOf_store_other by apply chatKey_global.
  - intros s [key H] L. rewrite indexOf_store_other by apply chatKey_global.
    apply (indexed_live _ W); auto. exists key. now rewrite K in H.
Qed.

Lemma wellIndexed_updateS now streamId updates st :
  Partial.id updates = None -> wellIndexed st -> wellIndexed (updateS now streamId updates st).
Proof.
  intros U W. unfold updateS.
  destruct (lookup _ _) as [[s|l| | |]|] eqn:E; auto.
  apply wellIndexed_storeStreamS; auto.
  unfold merge; simpl. rewrite U; simpl.
  destruct (indexed_keys _ W _ _ E) as [-> N]. exact N.
Qed.

Lemma wellIndexed_endS now streamId st : wellIndexed st -> wellIndexed (endS now streamId st).
Proof.
  intros W. unfold endS.
  set (st1 := updateS now streamId (setIsLive false) st).
  assert (W1 : wellIndexed st1) by (now apply wellIndexed_updateS).
  assert (Q : forall s, lookup (streamKey streamId) st1 = Some (SStream s) ->
                        Stream.isLive s = false).
  { intros s. subst st1. unfold updateS.
    destruct (lookup (streamKey streamId) st) as [[r|l| | |]|] eqn:E; try congruence.
    rewrite lookup_storeStreamS. simpl.
    destruct (indexed_keys _ W _ _ E) as [-> _]. rewrite String.eqb_refl. now intros [= <-]. }
  assert (K2 : forall key, lookup (streamKey key) (unlist streamId st1) = lookup (streamKey key) st1).
  { intros key. unfold unlist. destruct (lookup globalKey st1) as [[r|l| | |]|]; auto.
    apply lookup_store_other. intros Z; symmetry in Z; now apply streamKey_global in Z. }
  assert (W2 : wellIndexed (unlist streamId st1)).
  { apply wellIndexed_shrink with st1; auto.
    - intros key v. now rewrite K2.
    - intros e. rewrite indexOf_unlist. intros I. now apply filter_In in I.
    - intros s [key H] L. rewrite indexOf_unlist. rewrite K2 in H. apply filter_In. split.
      + apply (indexed_live _ W1); auto. now exists key.
      + unfold notId. apply negb_true_iff, String.eqb_neq. intros Z.
        destruct (indexed_keys _ W1 _ _ H) as [Y _]. rewrite Z in Y. subst key.
        rewrite (Q s H) in L. discriminate. }
  set (st2 := unlist streamId st1) in *.
  assert (K3 : forall key v,
             lookup (streamKey key) (remove (chatKey streamId) (remove (streamKey streamId) st2)) = Some v ->
             lookup (streamKey key) st2 = Some v).
  { intros key v.
    rewrite lookup_remove_other by (intros Z; symmetry in Z; now apply streamKey_chatKey in Z).
    rewrite lookup_remove. destruct (String.eqb _ _); [discriminate|auto]. }
  assert (G3 : indexOf (remove (chatKey streamId) (remove (streamKey streamId) st2)) = indexOf st2).
  { rewrite !indexOf_remove_other; auto using chatKey_global, streamKey_global. }
  apply wellIndexed_shrink with st2; auto.
  - intros e. now rewrite G3.
  - intros s [key H] L. rewrite G3. apply (indexed_live _ W2); auto. exists key. now apply K3.
Qed.

Lemma createStream_run now rnd streamData w :
  let stream := merge streamData
                  (Partial.mk (Some ("stream_" ++ string_of_Z now ++ "_" ++ rnd))
                              None None None None None None None None None) now in
  createStream now rnd streamData w =
  (Ret ("stream_" ++ string_of_Z now ++ "_" ++ rnd),
   afterBroadcast (BStreamCreated stream)
     (afterTrigger "streamCreated" (PStream stream)
        (withStorage w (storeStreamS stream (ls w))))).
Proof.
  intros stream. unfold createStream. fold stream.
  rewrite (bind_run _ (storeStream_run _ _)), (bind_run _ (triggerListeners_run _ _ _)),
    (bind_run _ (broadcastStreamEvent_run _ _)).
  reflexivity.
Qed.

Lemma wellIndexed_runOp op w : wellIndexed (ls w) -> wellIndexed (ls (after (runOp op w))).
Proof.
  intros W.
  destruct op as [now rnd streamId sender message senderAddress
                 |now rnd streamId viewerName viewerAddress
                 |now rnd streamId viewerName]; simpl.
  - rewrite sendMessage_run. unfold after; simpl. now apply wellIndexed_appendChat.
  - pose proof (joinStream_ls now rnd streamId viewerName viewerAddress w) as J. simpl in J.
    destruct (find _ _).
    + destruct J as [_ ->].
      apply wellIndexed_appendChat, wellIndexed_updateS; auto using wellIndexed_getAll.
    + rewrite J. unfold after at 1; simpl. now apply wellIndexed_getAll.
  - pose proof (leaveStream_ls now rnd streamId viewerName w) as J. simpl in J.
    destruct (find _ _).
    + destruct J as [_ ->].
      apply wellIndexed_appendChat, wellIndexed_updateS; auto using wellIndexed_getAll.
    + rewrite J. unfold after at 1; simpl. now apply wellIndexed_getAll.
Qed.

(** Starting from a storage whose index mirrors its records (the empty
    storage is one), every sequence of [createStream], [endStream],
    [getAllActiveStreams], [sendMessage], [joinStream] and
    [leaveStream] calls leaves such a storage. *)
Lemma wellIndexed_runCalls calls : forall w,
  wellIndexed (ls w) -> wellIndexed (ls (runCalls calls w)).
Proof.
  induction calls as [|c calls IH]; intros w W; simpl; auto.
  apply IH. destruct c as [now rnd streamData|now streamId|now|op]; simpl.
  - rewrite createStream_run. unfold after; simpl. rewrite ls_afterBroadcast; simpl.
    apply wellIndexed_storeStreamS; auto. discriminate.
  - destruct (endStream_ls now streamId w) as [_ ->]. now apply wellIndexed_endS.
  - now apply wellIndexed_getAll.
  - now apply wellIndexed_runOp.
Qed.



(** ** Viewer counts *)








Lemma find_mirrored w now streamId r :
  wellIndexed (ls w) ->
  lookup (streamKey streamId) (ls w) = Some (SStream r) ->
  Stream.isLive r = true -> now - Stream.startTime r < maxAge ->
  find (hasId streamId) (activeStreams now w) = Some r /\
  lookup (streamKey streamId) (ls (after (getAllActiveStreams now w))) = Some (SStream r).
Proof.
  intros W E L Y.
  destruct (getAll_mirrored w now W) as (res & w1 & G & V & S & _).
  unfold activeStreams. rewrite G. unfold result, after; simpl.
  split; [|now apply S].
  destruct (indexed_keys _ W _ _ E) as [I _].
  destruct (find (hasId streamId) res) as [s|] eqn:F.
  - apply find_some in F as [F H]. unfold hasId in H. apply String.eqb_eq in H.
    apply V in F as ([key Es] & _ & _).
    destruct (indexed_keys _ W _ _ Es) as [Is _].
    assert (key = streamId) by congruence. subst key. congruence.
  - exfalso. assert (Vr : In r res) by (apply V; repeat split; auto; now exists streamId).
    pose proof (find_none _ _ F _ Vr) as N. unfold hasId in N.
    rewrite I, String.eqb_refl in N. discriminate.
Qed.



(** ** Streams that are not found *)

(** C6, as the code has it: when the list of [getAllActiveStreams()]
    holds no record with the id, [joinStream] and [leaveStream] return
    [false] and do nothing but that reconciliation pass: they leave the
    world exactly as [getAllActiveStreams()] alone leaves it.  That pass
    changes no chat transcript, creates and modifies no individual
    record (it may delete some), rewrites the global index to the list
    it returns and invokes no subscriber.  In a storage whose index
    mirrors its records, the list holds no record with the id exactly
    when no live record under 24 hours old is stored under the id's
    key. *)
Theorem join_leave_not_found
    (w : World) (now : Z) (rnd streamId viewerName : string) (viewerAddress : option string) :
  (find (hasId streamId) (activeStreams now w) = None ->
   let w1 := after (getAllActiveStreams now w) in
   joinStream now rnd streamId viewerName viewerAddress w = (Ret false, w1) /\
   leaveStream now rnd streamId viewerName w = (Ret false, w1) /\
   (forall id, lookup (chatKey id) (ls w1) = lookup (chatKey id) (ls w)) /\
   (forall id v, lookup (streamKey id) (ls w1) = Some v -> lookup (streamKey id) (ls w) = Some v) /\
   lookup globalKey (ls w1) = Some (SIndex (activeStreams now w)) /\
   invoked w1 = invoked w) /\
  (wellIndexed (ls w) ->
   (find (hasId streamId) (activeStreams now w) = None <->
    forall r, lookup (streamKey streamId) (ls w) = Some (SStream r) ->
              ~ (Stream.isLive r = true /\ fresh now r))).
Proof.
  split.
  - intros N w1.
    pose proof (joinStream_ls now rnd streamId viewerName viewerAddress w) as J.
    pose proof (leaveStream_ls now rnd streamId viewerName w) as L.
    simpl in J, L. rewrite N in J, L.
    destruct (getAll_frame now w) as (C & S & G & _ & I & _).
    repeat split; auto.
  - intros W. split.
    + intros N r E [L Y].
      destruct (find_mirrored w now streamId r W E L Y) as [F _]. congruence.
    + intros A. destruct (find (hasId streamId) (activeStreams now w)) as [s|] eqn:F; auto.
      exfalso. apply find_some in F as [F H]. unfold hasId in H. apply String.eqb_eq in H.
      destruct (getAll_mirrored w now W) as (res & w1 & G & V & _).
      unfold activeStreams in F. rewrite G in F. unfold result in F; simpl in F.
      apply V in F as ([key E] & L & Y).
      destruct (indexed_keys _ W _ _ E) as [I _].
      assert (K : key = streamId) by congruence. rewrite K in E.
      exact (A s E (conj L Y)).
Qed.

(** ** Ended streams stay ended *)











(** ** The claims that fail as worded, at concrete storages *)

(** Against C6 as worded: stream "a" has ended (its record is
    still stored, not live), so it is not active; [joinStream] and
    [leaveStream] return [false], and the storage is not what it was:
    the record of "a" is gone and a global index has appeared. *)
Lemma join_reconciles_storage :
  let now := 100 * hour in
  let ended := sample "a" false (now - hour) 3 in
  let w := storageOf [(streamKey "a", SStream ended)] in
  find (hasId "a") (activeStreams now w) = None /\
  joinStream now "r1" "a" "Alice" None w = (Ret false, storageOf [(globalKey, SIndex [])]) /\
  leaveStream now "r1" "a" "Alice" w = (Ret false, storageOf [(globalKey, SIndex [])]) /\
  ls (after (joinStream now "r1" "a" "Alice" None w)) <> ls w.
Proof.
  intros now ended w. repeat split; try (vm_compute; reflexivity).
  vm_compute. discriminate.
Qed.


(** ** The theorems at concrete storages *)

Lemma lookup_In key v st : lookup key st = Some v -> In (key, v) st.
Proof.
  induction st as [|[k v'] st IH]; simpl; [discriminate|].
  destruct (String.eqb_spec k key) as [->|]; [intros [= ->]; now left|right; auto].
Qed.


Lemma demoWorld_wellIndexed : wellIndexed (ls demoWorld).
Proof. apply wellIndexed_runCalls, wellIndexed_empty. Qed.






Lemma staleIndexWorld_keyConsistent : keyConsistent (ls staleIndexWorld).
Proof.
  intros key s H. apply lookup_In in H. destruct H as [[=]|[]].
Qed.

(** the index of [staleIndexWorld] lists a stream that has no record *)
Lemma index_self_healing_witness :
  keyConsistent (ls staleIndexWorld) /\
  In (sample "a" true demoTime 0) (indexOf (ls staleIndexWorld)) /\
  exists res,
    result (getAllActiveStreams (demoTime + hour) staleIndexWorld) = Ret res /\
    (forall s, In s res -> Stream.id s <> "a") /\
    lookup globalKey (ls (after (getAllActiveStreams (demoTime + hour) staleIndexWorld))) =
      Some (SIndex res) /\
    forall e, In e (indexOf (ls (after (getAllActiveStreams (demoTime + hour) staleIndexWorld)))) ->
              Stream.id e <> "a".
Proof.
  split; [exact staleIndexWorld_keyConsistent|].
  split; [now left|].
  apply (index_self_healing staleIndexWorld (demoTime + hour) (sample "a" true demoTime 0)
           staleIndexWorld_keyConsistent).
  - now left.
  - intros s. discriminate.
Defined.

(** joining and leaving a stream that [demoWorld] does not have *)
Lemma join_leave_not_found_witness :
  find (hasId "nobody") (activeStreams (demoTime + hour) demoWorld) = None /\
  joinStream (demoTime + hour) "r1" "nobody" "Alice" None demoWorld =
    (Ret false, after (getAllActiveStreams (demoTime + hour) demoWorld)) /\
  leaveStream (demoTime + hour) "r1" "nobody" "Alice" demoWorld =
    (Ret false, after (getAllActiveStreams (demoTime + hour) demoWorld)).
Proof.
  assert (N : find (hasId "nobody") (activeStreams (demoTime + hour) demoWorld) = None)
    by reflexivity.
  destruct (join_leave_not_found demoWorld (demoTime + hour) "r1" "nobody" "Alice" None)
    as (P & _).
  destruct (P N) as (J & L & _).
  repeat split; assumption.
Defined.



(** two subscribers of one event, the first of which throws *)
Lemma triggerListeners_isolation_witness :
  subscribers "newMessage" subscribedWorld = [faulty; quiet] /\
  throws faulty (PStreamId "s1") = true /\
  result (triggerListeners "newMessage" (PStreamId "s1") subscribedWorld) = Ret tt /\
  invoked (after (triggerListeners "newMessage" (PStreamId "s1") subscribedWorld)) =
    [(1%nat, PStreamId "s1"); (2%nat, PStreamId "s1")] /\
  In (fid quiet, PStreamId "s1")
     (skipn (List.length (invoked subscribedWorld))
        (invoked (after (triggerListeners "newMessage" (PStreamId "s1") subscribedWorld)))).
Proof.
  destruct (triggerListeners_isolation "newMessage" (PStreamId "s1") subscribedWorld)
    as (_ & R & I & T & _).
  split; [reflexivity|]. split; [reflexivity|]. split; [exact R|]. split; [exact I|].
  apply (T [] faulty [] quiet []); reflexivity.
Defined.

(** * Further properties of the registry *)

(** ** A stream that was created is listed *)

Lemma has_false id ids : has id ids = false -> ~ In id ids.
Proof.
  unfold has. intros H I.
  assert (E : existsb (String.eqb id) ids = true)
    by (apply existsb_exists; exists id; split; [exact I|apply String.eqb_refl]).
  congruence.
Qed.

Lemma has_cons_other id id' ids : id' <> id -> has id (id' :: ids) = has id ids.
Proof.
  intros N. unfold has; simpl.
  destruct (String.eqb id id') eqn:E; [|reflexivity].
  apply String.eqb_eq in E. congruence.
Qed.

Lemma lookup_remove_stream_other id id' st :
  id <> id' -> lookup (streamKey id') (remove (streamKey id) st) = lookup (streamKey id') st.
Proof. intros N. apply lookup_remove_other. intros E. now apply streamKey_inj in E. Qed.

Section Listed.
Variables (w0 : World) (t : Z) (s : StreamData).
Hypothesis live : Stream.isLive s = true.
Hypothesis named : Stream.id s <> "".
Hypothesis young : fresh t s.
Hypothesis others : forall e, In e (indexOf (ls w0)) -> Stream.id e = Stream.id s -> fresh t e.



End Listed.





(** ** The list of a pass, in any storage *)

(** X2: in any storage, [getAllActiveStreams()] returns normally;
    every record it returns is live and was stored under an individual
    stream key; afterwards the global index holds exactly the returned
    list; every other key keeps its value, except that individual
    stream keys may have been deleted; no subscriber is invoked,
    nothing is broadcast and no subscription changes. *)
Theorem reconciliation_sound (w : World) (now : Z) :
  let w1 := after (getAllActiveStreams now w) in
  result (getAllActiveStreams now w) = Ret (activeStreams now w) /\
  (forall s, In s (activeStreams now w) -> Stream.isLive s = true /\ held s (ls w)) /\
  lookup globalKey (ls w1) = Some (SIndex (activeStreams now w)) /\
  (forall key, key <> globalKey ->
     lookup key (ls w1) = lookup key (ls w) \/
     (lookup key (ls w1) = None /\ exists id, key = streamKey id)) /\
  listeners w1 = listeners w /\ invoked w1 = invoked w /\ posted w1 = posted w /\
  hasChannel w1 = hasChannel w /\ windowId w1 = windowId w.
Proof.
  intros w1. subst w1.
  destruct (getAll_sound now w) as (res & st1 & E & P & S).
  unfold activeStreams, getAllActiveStreams, result, after. rewrite E. simpl.
  split; [reflexivity|]. split; [exact S|]. split; [apply lookup_store_same|].
  split; [|repeat split].
  intros key N. rewrite lookup_store_other by congruence. apply P.
Qed.

(** ** No stream is listed twice *)

Lemma NoDup_map_filter {A B} (f : A -> B) (p : A -> bool) l :
  NoDup (map f l) -> NoDup (map f (filter p l)).
Proof.
  induction l as [|x l IH]; simpl; intros H; [constructor|].
  inversion H as [|? ? N H']; subst.
  destruct (p x); simpl; auto. constructor; auto.
  intros I. apply N. apply in_map_iff in I as (y & E & I).
  apply filter_In in I as [I _]. apply in_map_iff. eauto.
Qed.

Section Distinct.
Variables (w0 : World) (t : Z).
Hypothesis KC : keyConsistent (ls w0).

Lemma distinct_remove acc w id :
  distinct w0 acc w -> distinct w0 acc (withStorage w (remove (streamKey id) (ls w))).
Proof. intros (P & N & A). split; [now apply purged_remove|split; assumption]. Qed.

Lemma distinct_push acc w v id :
  distinct w0 acc w ->
  lookup (streamKey id) (ls w) = Some (SStream v) ->
  nonEmpty id = true -> has id (streamIds acc) = false ->
  distinct w0 (push acc v id) w.
Proof.
  intros (P & N & A) E NE H.
  pose proof (purged_found _ _ _ _ P E) as E0.
  pose proof (KC _ _ E0) as Q. subst id.
  apply has_false in H.
  split; [exact P|]. split.
  - simpl. rewrite map_app. apply NoDup_app; auto.
    + simpl. constructor; [intros []|constructor].
    + intros a I [<-|[]]. apply in_map_iff in I as (s & Q & I).
      destruct (A s I) as (I' & _). rewrite Q in I'. contradiction.
  - intros s [I|[<-|[]]]%in_app_or.
    + destruct (A s I) as (I' & N' & E'). split; [now right|split; assumption].
    + split; [now left|]. split; [|exact E0].
      unfold nonEmpty in NE. now apply negb_true_iff, String.eqb_neq in NE.
Qed.

Lemma indexEntry_distinct acc e w :
  distinct w0 acc w ->
  exists acc' w', indexEntry t acc e w = (Ret acc', w') /\ distinct w0 acc' w'.
Proof.
  intros H.
  unfold indexEntry, bind, tryCatch, getItem, removeItem, parseStream, ret, throw.
  destruct (_ && _ && _ && _) eqn:C.
  - apply andb_true_iff in C as [C _]. apply andb_true_iff in C as [C NH].
    apply andb_true_iff in C as [_ NE]. apply negb_true_iff in NH.
    destruct (lookup _ _) as [[v| | | |]|] eqn:E; simpl; eauto using distinct_remove.
    destruct (Stream.isLive v); eauto using distinct_push.
  - destruct (_ >=? _); eauto using distinct_remove.
Qed.

Lemma scanEntry_distinct key acc w :
  distinct w0 acc w ->
  exists acc' w', scanEntry t key acc w = (Ret acc', w') /\ distinct w0 acc' w'.
Proof.
  intros H.
  unfold scanEntry, bind, tryCatch, getItem, removeItem, parseStream, ret, throw.
  destruct key as [key|]; eauto.
  destruct (nonEmpty key && startsWith key streamPrefix) eqn:K; eauto.
  apply andb_true_iff in K as [_ K]. apply startsWith_inv in K as [id ->].
  destruct (lookup _ _) as [[v| | | |]|] eqn:E; simpl; eauto using distinct_remove.
  destruct (_ && _ && _ && _) eqn:C.
  - apply andb_true_iff in C as [C _]. apply andb_true_iff in C as [C NH].
    apply andb_true_iff in C as [_ NE]. apply negb_true_iff in NH.
    assert (Q : Stream.id v = id).
    { destruct H as (P & _). apply KC. eapply purged_found; eauto. }
    rewrite Q in *. eauto using distinct_push.
  - destruct (_ || _); eauto using distinct_remove.
Qed.

Lemma getAll_distinct :
  NoDup (map Stream.id (activeStreams t w0)) /\
  forall s, In s (activeStreams t w0) ->
            Stream.id s <> "" /\ lookup (streamKey (Stream.id s)) (ls w0) = Some (SStream s).
Proof.
  destruct (@foldM_inv _ _ (indexEntry t) (fun _ => distinct w0) (indexOf (ls w0))
              (fun _ e acc w _ => indexEntry_distinct acc e w) [] emptyFound w0)
    as (acc1 & w1 & E1 & D1).
  { split; [apply purged_refl|]. split; [constructor|intros ? []]. }
  destruct (scanLoop_inv (distinct w0) t (fun key acc w => scanEntry_distinct key acc w)
              (List.length (ls w1)) 0%nat acc1 w1 D1) as (acc2 & w2 & E2 & (P & N & A)).
  unfold activeStreams, getAllActiveStreams, result.
  rewrite (getAll_phases _ _ _ _ _ _ E1 E2). simpl.
  split; [now apply NoDup_map_filter|].
  intros s I. apply filter_In in I as [I _]. now apply A.
Qed.
End Distinct.

(** X3: in a storage where every individual record sits under the key
    built from its own id, [getAllActiveStreams()] lists no stream
    twice: the ids of the returned records are pairwise distinct and
    non-empty, and each returned record is the one stored under the key
    of its id. *)
Theorem active_ids_distinct (w : World) (now : Z) :
  keyConsistent (ls w) ->
  NoDup (map Stream.id (activeStreams now w)) /\
  forall s, In s (activeStreams now w) ->
            Stream.id s <> "" /\ Stream.isLive s = true /\
            lookup (streamKey (Stream.id s)) (ls w) = Some (SStream s).
Proof.
  intros K. destruct (getAll_distinct w now K) as [N A].
  split; [exact N|]. intros s I. destruct (A s I) as [Q E].
  destruct (getAll_sound now w) as (res & st1 & R & _ & S).
  split; [exact Q|]. split; [|exact E].
  apply S. unfold activeStreams, getAllActiveStreams, result in I. now rewrite R in I.
Qed.

Lemma twiceListedWorld_keyConsistent : keyConsistent (ls twiceListedWorld).
Proof.
  intros key s H. apply lookup_In in H. destruct H as [[=]|[[= E <-]|[]]].
  subst key. reflexivity.
Qed.

(** an index that lists the same stream twice *)
Lemma active_ids_distinct_witness :
  keyConsistent (ls twiceListedWorld) /\
  indexOf (ls twiceListedWorld) = [demoStream; demoStream] /\
  NoDup (map Stream.id (activeStreams (demoTime + hour) twiceListedWorld)).
Proof.
  split; [exact twiceListedWorld_keyConsistent|]. split; [reflexivity|].
  apply (active_ids_distinct twiceListedWorld (demoTime + hour)), twiceListedWorld_keyConsistent.
Defined.

(** ** The facade *)

Lemma getStream_run t streamId w :
  StreamingContract.getStream t streamId w =
  (Ret (find (hasId streamId) (activeStreams t w)), after (getAllActiveStreams t w)).
Proof.
  unfold StreamingContract.getStream. now rewrite (bind_run _ (getAll_eq t w)).
Qed.

Lemma find_hasId_absent id l :
  (forall s, In s l -> Stream.id s <> id) -> find (hasId id) l = None.
Proof.
  intros H. destruct (find (hasId id) l) as [s|] eqn:E; [|reflexivity].
  apply find_some in E as [I Q]. unfold hasId in Q. apply String.eqb_eq in Q.
  destruct (H s I Q).
Qed.



(** ** Clearing *)

Lemma skipn_nth_error {A} (l : list A) : forall i x,
  nth_error l i = Some x -> skipn i l = x :: skipn (S i) l.
Proof.
  induction l as [|y l IH]; intros [|i] x E; simpl in *; try discriminate.
  - now injection E as ->.
  - now apply IH.
Qed.

(** the loop collects, in their order, the keys that start with
    [pandapi_], and changes nothing *)
Lemma collectLoop_run fuel : forall i keys w,
  (List.length (ls w) - i <= fuel)%nat ->
  collectLoop fuel i keys w =
  (Ret (keys ++ filter (fun k => startsWith k pandapiPrefix) (map fst (skipn i (ls w))))%list, w).
Proof.
  induction fuel as [|fuel IH]; intros i keys w H.
  - simpl. unfold ret. rewrite skipn_all2 by lia. simpl. now rewrite app_nil_r.
  - simpl. unfold bind, lsLength, lsKey, ret.
    destruct (Nat.ltb_spec i (List.length (ls w))) as [B|B].
    + destruct (nth_error (ls w) i) as [[k v]|] eqn:E.
      * simpl. rewrite IH by lia. rewrite (skipn_nth_error _ _ _ E). simpl.
        destruct (startsWith k pandapiPrefix); [now rewrite <- app_assoc|reflexivity].
      * apply nth_error_None in E. lia.
    + rewrite skipn_all2 by lia. simpl. now rewrite app_nil_r.
Qed.

Lemma forEach_removeItem keys : forall w,
  foldM (fun (_ : unit) key => removeItem key) keys tt w =
  (Ret tt, withStorage w (fold_left (fun st key => remove key st) keys (ls w))).
Proof.
  induction keys as [|k keys IH]; intros w; simpl.
  - unfold ret. now rewrite withStorage_ls.
  - unfold bind, removeItem. rewrite IH. reflexivity.
Qed.

Lemma filter_filter {A} (f g : A -> bool) l :
  filter f (filter g l) = filter (fun x => g x && f x) l.
Proof.
  induction l as [|x l IH]; simpl; auto.
  destruct (g x); simpl; [destruct (f x)|]; now rewrite IH.
Qed.

Lemma fold_remove keys : forall st,
  fold_left (fun st key => remove key st) keys st =
  filter (fun kv => negb (existsb (String.eqb (fst kv)) keys)) st.
Proof.
  induction keys as [|k keys IH]; intros st; simpl.
  - symmetry. now apply filter_all.
  - rewrite IH. unfold remove. rewrite filter_filter. apply filter_ext.
    intros [k' v]; simpl. destruct (String.eqb k' k); reflexivity.
Qed.

Lemma lookup_filter (f : string -> bool) key st :
  lookup key (filter (fun kv => f (fst kv)) st) = if f key then lookup key st else None.
Proof.
  induction st as [|[k v] st IH]; simpl; [now destruct (f key)|].
  destruct (String.eqb k key) eqn:E.
  - apply String.eqb_eq in E. subst k. destruct (f key); simpl; [now rewrite String.eqb_refl|exact IH].
  - destruct (f k); simpl; [now rewrite E|exact IH].
Qed.

Lemma clearAllStreams_run w :
  clearAllStreams w =
  (Ret tt,
   afterTrigger "streamsUpdated" (PStreams [])
     (afterBroadcast BStreamsCleared
        (withStorage w (filter (fun kv => negb (startsWith (fst kv) pandapiPrefix)) (ls w))))).
Proof.
  unfold clearAllStreams, tryCatch.
  assert (E : lsLength w = (Ret (List.length (ls w)), w)) by reflexivity.
  rewrite (bind_run _ E).
  rewrite (bind_run _ (collectLoop_run (List.length (ls w)) 0 [] w (Nat.le_sub_l _ _))).
  rewrite (bind_run _ (forEach_removeItem _ _)).
  rewrite (bind_run _ (broadcastStreamEvent_run _ _)).
  rewrite triggerListeners_run. simpl.
  rewrite fold_remove. do 4 f_equal.
  apply filter_ext_in. intros [k v] I. simpl. f_equal.
  destruct (startsWith k pandapiPrefix) eqn:P.
  - apply existsb_exists. exists k. split; [|apply String.eqb_refl].
    apply filter_In. split; [|exact P]. apply in_map_iff. now exists (k, v).
  - destruct (existsb _ _) eqn:X; [|reflexivity].
    apply existsb_exists in X as (k' & I' & Q). apply String.eqb_eq in Q. subst k'.
    apply filter_In in I' as [_ I']. congruence.
Qed.

(** X5: [clearAllStreams()] returns normally and removes from
    [localStorage] exactly the keys that start with [pandapi_]: each of
    them is gone, whatever its value, every other key keeps its value,
    and the keys that stay keep their order.  It posts one
    [streamsCleared] message when the channel exists and calls the
    subscribers of [streamsUpdated] with the empty list. *)
Theorem clearAllStreams_storage (w : World) :
  let w' := after (clearAllStreams w) in
  result (clearAllStreams w) = Ret tt /\
  ls w' = filter (fun kv => negb (startsWith (fst kv) pandapiPrefix)) (ls w) /\
  (forall key, startsWith key pandapiPrefix = true -> lookup key (ls w') = None) /\
  (forall key, startsWith key pandapiPrefix = false -> lookup key (ls w') = lookup key (ls w)) /\
  posted w' = (posted w ++ if hasChannel w then [BStreamsCleared (windowId w)] else [])%list /\
  invoked w' =
    (invoked w ++ map (fun l => (fid l, PStreams [])) (subscribers "streamsUpdated" w))%list.
Proof.
  intros w'. subst w'. rewrite clearAllStreams_run. unfold result, after; simpl.
  rewrite ls_afterBroadcast. simpl.
  split; [reflexivity|]. split; [reflexivity|]. split; [|split; [|split]].
  - intros key P. rewrite (lookup_filter (fun k => negb (startsWith k pandapiPrefix))).
    now rewrite P.
  - intros key P. rewrite (lookup_filter (fun k => negb (startsWith k pandapiPrefix))).
    now rewrite P.
  - unfold afterBroadcast. simpl. destruct (hasChannel w); simpl; [reflexivity|].
    now rewrite app_nil_r.
  - unfold afterBroadcast, subscribers. simpl. destruct (hasChannel w); reflexivity.
Qed.

Lemma streamKey_pandapi id : startsWith (streamKey id) pandapiPrefix = true.
Proof. reflexivity. Qed.

Lemma chatKey_pandapi id : startsWith (chatKey id) pandapiPrefix = true.
Proof. reflexivity. Qed.

(** X6: after [clearAllStreams()], whatever the storage held, no
    stream is listed, every transcript is empty, and joining or leaving
    any stream fails. *)
Theorem clearAllStreams_empties
    (w : World) (t : Z) (rnd streamId viewerName : string) (viewerAddress : option string) :
  let w' := after (clearAllStreams w) in
  result (getAllActiveStreams t w') = Ret [] /\
  result (getChatMessages streamId w') = Ret [] /\
  result (joinStream t rnd streamId viewerName viewerAddress w') = Ret false /\
  result (leaveStream t rnd streamId viewerName w') = Ret false /\
  result (StreamingContract.getStream t streamId w') = Ret None.
Proof.
  intros w'.
  assert (G : forall key, startsWith key pandapiPrefix = true -> lookup key (ls w') = None).
  { intros key P. unfold w'. rewrite clearAllStreams_run. unfold after; simpl.
    rewrite ls_afterBroadcast. simpl.
    rewrite (lookup_filter (fun k => negb (startsWith k pandapiPrefix))). now rewrite P. }
  assert (A : activeStreams t w' = []).
  { destruct (getAll_sound t w') as (res & st1 & E & _ & S).
    unfold activeStreams, getAllActiveStreams, result. rewrite E. simpl.
    destruct res as [|s res]; [reflexivity|].
    destruct (S s (or_introl eq_refl)) as [_ [id H]].
    rewrite (G _ (streamKey_pandapi id)) in H. discriminate. }
  split; [rewrite getAll_eq, A; reflexivity|].
  split.
  { rewrite getChatMessages_run. unfold chatOf. now rewrite (G _ (chatKey_pandapi streamId)). }
  pose proof (joinStream_ls t rnd streamId viewerName viewerAddress w') as J.
  pose proof (leaveStream_ls t rnd streamId viewerName w') as L.
  simpl in J, L. rewrite A in J, L. simpl in J, L.
  split; [now rewrite J|]. split; [now rewrite L|].
  rewrite getStream_run, A. reflexivity.
Qed.

(** ** Unsubscribing *)

Lemma getListeners_set_other event event' l m :
  event <> event' -> getListeners event' (setListeners event l m) = getListeners event' m.
Proof.
  intros N. induction m as [|[e l'] m IH]; simpl.
  - destruct (String.eqb event event') eqn:E; [apply String.eqb_eq in E; contradiction|reflexivity].
  - destruct (String.eqb e event) eqn:E; simpl.
    + apply String.eqb_eq in E. subst e.
      destruct (String.eqb event event') eqn:E'; [apply String.eqb_eq in E'; contradiction|reflexivity].
    + destruct (String.eqb e event'); [reflexivity|exact IH].
Qed.

Lemma off_subscribers event callback w :
  subscribers event (after (off event callback w)) =
  spliceFirst (fid callback) (subscribers event w).
Proof.
  unfold off, subscribers. destruct (getListeners event (listeners w)) as [l|] eqn:E; simpl.
  - now rewrite getListeners_set_same.
  - now rewrite E.
Qed.

Lemma off_other event event' callback w :
  event <> event' -> subscribers event' (after (off event callback w)) = subscribers event' w.
Proof.
  intros N. unfold off, subscribers.
  destruct (getListeners event (listeners w)) as [l|]; simpl; [|reflexivity].
  now rewrite getListeners_set_other.
Qed.

Lemma on_other event event' callback w :
  event <> event' -> subscribers event' (after (on event callback w)) = subscribers event' w.
Proof.
  intros N. rewrite on_run. unfold after, subscribers; simpl.
  now rewrite getListeners_set_other.
Qed.

Lemma spliceFirst_snoc callback l :
  (forall c, In c l -> fid c <> fid callback) ->
  spliceFirst (fid callback) (l ++ [callback]) = l.
Proof.
  induction l as [|c l IH]; intros H; simpl.
  - now rewrite Nat.eqb_refl.
  - destruct (Nat.eqb_spec (fid c) (fid callback)) as [E|_].
    + destruct (H c (or_introl eq_refl) E).
    + rewrite IH; auto. intros c' I. apply H. now right.
Qed.

Lemma registrations_spliceFirst callback l :
  registrations callback (spliceFirst (fid callback) l) = Nat.pred (registrations callback l).
Proof.
  unfold registrations. induction l as [|c l IH]; simpl; [reflexivity|].
  destruct (Nat.eqb (fid c) (fid callback)) eqn:E; simpl; [reflexivity|].
  now rewrite E.
Qed.

Lemma registrations_spliceFirst_other callback c l :
  fid c <> fid callback ->
  registrations c (spliceFirst (fid callback) l) = registrations c l.
Proof.
  intros N. unfold registrations. induction l as [|c' l IH]; simpl; [reflexivity|].
  destruct (Nat.eqb_spec (fid c') (fid callback)) as [E|E]; simpl.
  - destruct (Nat.eqb_spec (fid c') (fid c)) as [E'|_]; [congruence|reflexivity].
  - destruct (Nat.eqb (fid c') (fid c)); simpl; now rewrite IH.
Qed.

Lemma otherThan_spliceFirst callback l :
  otherThan callback (spliceFirst (fid callback) l) = otherThan callback l.
Proof.
  unfold otherThan. induction l as [|c l IH]; simpl; [reflexivity|].
  destruct (Nat.eqb (fid c) (fid callback)) eqn:E; simpl; [reflexivity|].
  now rewrite E, IH.
Qed.

Lemma off_frame event callback w :
  result (off event callback w) = Ret tt /\
  ls (after (off event callback w)) = ls w /\
  invoked (after (off event callback w)) = invoked w /\
  posted (after (off event callback w)) = posted w.
Proof.
  unfold off. destruct (getListeners event (listeners w)); simpl; auto.
Qed.

(** X7: subscribing a callback that is not yet subscribed to the event
    and unsubscribing it again leaves every event with the subscribers
    it had, in the same order, and touches nothing else. *)
Theorem on_off_round_trip (w : World) (event : string) (callback : Listener) :
  (forall c, In c (subscribers event w) -> fid c <> fid callback) ->
  let w' := after (off event callback (after (on event callback w))) in
  (forall e, subscribers e w' = subscribers e w) /\
  ls w' = ls w /\ invoked w' = invoked w /\ posted w' = posted w.
Proof.
  intros N w'. subst w'. split.
  - intros e. destruct (String.eqb_spec event e) as [<-|D].
    + rewrite off_subscribers, subscribers_on. now apply spliceFirst_snoc.
    + rewrite off_other, on_other; auto.
  - destruct (off_frame event callback (after (on event callback w))) as (_ & A & B & C).
    rewrite A, B, C, on_run. unfold after; simpl. auto.
Qed.

(** a second subscriber of [newMessage], added and removed again *)
Lemma on_off_round_trip_witness :
  let late := mkListener 3 (fun _ => false) in
  let w' := after (off "newMessage" late (after (on "newMessage" late subscribedWorld))) in
  subscribers "newMessage" subscribedWorld = [faulty; quiet] /\
  subscribers "newMessage" w' = subscribers "newMessage" subscribedWorld.
Proof.
  intros late w'. split; [reflexivity|].
  apply (on_off_round_trip subscribedWorld "newMessage" late).
  intros c [<-|[<-|[]]]; discriminate.
Defined.

(** X8: [off(event, callback)] removes one registration of the
    callback from the event, the earliest, and nothing else: the
    callback is registered once less (not at all stays not at all), the
    other subscribers of the event stay as they were, in their order,
    and so do the subscribers of every other event.  A callback
    subscribed twice and unsubscribed once is still called once at each
    emission. *)
Theorem off_removes_one_registration (w : World) (event : string) (callback : Listener) :
  let w' := after (off event callback w) in
  result (off event callback w) = Ret tt /\
  registrations callback (subscribers event w') =
    Nat.pred (registrations callback (subscribers event w)) /\
  otherThan callback (subscribers event w') = otherThan callback (subscribers event w) /\
  (forall c, fid c <> fid callback ->
     registrations c (subscribers event w') = registrations c (subscribers event w)) /\
  (forall e, e <> event -> subscribers e w' = subscribers e w) /\
  (forall data,
     registrations callback (subscribers event w) = 2%nat ->
     List.length (filter (fun c => Nat.eqb (fst c) (fid callback))
                    (skipn (List.length (invoked w'))
                       (invoked (after (triggerListeners event data w'))))) = 1%nat).
Proof.
  intros w'. subst w'.
  destruct (off_frame event callback w) as (R & _ & I & _).
  split; [exact R|]. rewrite off_subscribers.
  split; [apply registrations_spliceFirst|].
  split; [apply otherThan_spliceFirst|].
  split; [intros c N; now apply registrations_spliceFirst_other|].
  split; [intros e N; apply off_other; congruence|].
  intros data H. rewrite triggerListeners_run. unfold after at 2; simpl.
  rewrite skipn_app, Nat.sub_diag, skipn_all. simpl.
  fold (subscribers event (after (off event callback w))). rewrite off_subscribers.
  pose proof (registrations_spliceFirst callback (subscribers event w)) as P.
  rewrite H in P. simpl in P. rewrite <- P. unfold registrations.
  generalize (spliceFirst (fid callback) (subscribers event w)). intros l.
  induction l as [|c l IH]; simpl; [reflexivity|].
  destruct (Nat.eqb (fid c) (fid callback)); simpl; now rewrite IH.
Qed.

Lemma off_removes_one_registration_witness :
  let w := after (on "newMessage" quiet subscribedWorld) in
  let w' := after (off "newMessage" quiet w) in
  subscribers "newMessage" w = [faulty; quiet; quiet] /\
  registrations quiet (subscribers "newMessage" w) = 2%nat /\
  subscribers "newMessage" w' = [faulty; quiet] /\
  List.length (filter (fun c => Nat.eqb (fst c) (fid quiet))
                 (skipn (List.length (invoked w'))
                    (invoked (after (triggerListeners "newMessage" (PStreamId "s1") w'))))) = 1%nat.
Proof.
  intros w w'. split; [reflexivity|]. split; [reflexivity|]. split; [reflexivity|].
  destruct (off_removes_one_registration w "newMessage" quiet) as (_ & _ & _ & _ & _ & T).
  apply T. reflexivity.
Defined.

(** ** Requests and responses between windows *)

Lemma syncStreams_run now w :
  syncStreams now w =
  (Ret tt, afterTrigger "streamsUpdated" (PStreams (activeStreams now w))
             (after (getAllActiveStreams now w))).
Proof.
  unfold syncStreams, tryCatch.
  change (getAllStreamsFromStorage now) with (getAllActiveStreams now).
  rewrite (bind_run _ (getAll_eq now w)), triggerListeners_run. reflexivity.
Qed.

Lemma getAll_window now w :
  hasChannel (after (getAllActiveStreams now w)) = hasChannel w /\
  windowId (after (getAllActiveStreams now w)) = windowId w.
Proof.
  destruct (getAll_sound now w) as (res & st1 & E & _).
  unfold getAllActiveStreams, after. rewrite E. split; reflexivity.
Qed.

(** X9: the handler of a [syncRequest] never fails; it runs a
    reconciliation pass and answers with one [syncResponse] carrying
    exactly the list of that pass and this window's id, unless the list
    is empty, in which case it posts nothing; it calls no subscriber.
    A [syncResponse] that carries this window's own id is ignored. *)
Theorem syncRequest_response (w : World) (now : Z) (sender : string) :
  let w' := after (onMessage now (BSyncRequest sender) w) in
  result (onMessage now (BSyncRequest sender) w) = Ret tt /\
  posted w' =
    (posted w ++ match activeStreams now w with
                 | [] => []
                 | streams => [BSyncResponse streams (windowId w)]
                 end)%list /\
  ls w' = ls (after (getAllActiveStreams now w)) /\
  invoked w' = invoked w /\
  (forall streams, onMessage now (BSyncResponse streams (windowId w)) w = (Ret tt, w)).
Proof.
  intros w'. subst w'. unfold onMessage.
  change (getAllStreamsFromStorage now) with (getAllActiveStreams now).
  rewrite (bind_run _ (getAll_eq now w)).
  destruct (getAll_frame now w) as (_ & _ & _ & _ & I & P).
  destruct (getAll_window now w) as (_ & W).
  split; [|split; [|split; [|split]]].
  - destruct (activeStreams now w); reflexivity.
  - destruct (activeStreams now w); unfold after at 1; simpl.
    + now rewrite app_nil_r.
    + now rewrite P, W.
  - destruct (activeStreams now w); reflexivity.
  - destruct (activeStreams now w); unfold after at 1; simpl; exact I.
  - intros streams. now rewrite String.eqb_refl.
Qed.

(** *** What a pass lists and keeps, when the index mirrors the records *)

Lemma active_mirrored w t s :
  wellIndexed (ls w) ->
  (In s (activeStreams t w) <-> held s (ls w) /\ Stream.isLive s = true /\ fresh t s).
Proof.
  intros W. destruct (getAll_mirrored w t W) as (res & w1 & E & V & _).
  unfold activeStreams, result. rewrite E. simpl. apply V.
Qed.

Lemma pass_live_held w t s :
  wellIndexed (ls w) -> Stream.isLive s = true ->
  (held s (ls (after (getAllActiveStreams t w))) <-> held s (ls w) /\ fresh t s).
Proof.
  intros W L. destruct (getAll_mirrored w t W) as (res & w1 & E & _ & S & F & _).
  destruct (getAll_frame t w) as (_ & B & _).
  rewrite E in *. unfold after in *; simpl in *. split.
  - intros H. split; [|now apply F]. destruct H as [key H]. exists key. now apply B.
  - intros [[key H] Y]. exists key. now apply S.
Qed.

(** *** Taking in the streams of a response *)

Lemma storeStreamFromBroadcast_ls stream w :
  storeStreamFromBroadcast stream w = (Ret tt, withStorage w (acceptS stream (ls w))).
Proof.
  rewrite storeStreamFromBroadcast_run. unfold acceptS.
  destruct (_ && _ && _); [apply storeStream_run|now rewrite withStorage_ls].
Qed.

Lemma forEach_storeStreamFromBroadcast streams : forall w,
  foldM (fun (_ : unit) stream => storeStreamFromBroadcast stream) streams tt w =
  (Ret tt, withStorage w (acceptAll streams (ls w))).
Proof.
  induction streams as [|s streams IH]; intros w; simpl.
  - unfold ret. now rewrite withStorage_ls.
  - unfold bind. rewrite storeStreamFromBroadcast_ls, IH. reflexivity.
Qed.



Lemma lookup_acceptS_other key s st :
  (forall id, key <> streamKey id) -> key <> globalKey ->
  lookup key (acceptS s st) = lookup key st.
Proof.
  intros A B. unfold acceptS. destruct (_ && _ && _); [|reflexivity].
  unfold storeStreamS. rewrite !lookup_store_other; auto.
Qed.

Lemma lookup_acceptAll_other key streams : forall st,
  (forall id, key <> streamKey id) -> key <> globalKey ->
  lookup key (acceptAll streams st) = lookup key st.
Proof.
  induction streams as [|s streams IH]; intros st A B; simpl; [reflexivity|].
  rewrite IH, lookup_acceptS_other; auto.
Qed.








(** *** A window that starts with nothing *)





(** ** A stream created or ended in another window *)





Lemma removeS_lookup_chat streamId key st :
  lookup (chatKey key) (removeS streamId st) =
  if String.eqb (chatKey streamId) (chatKey key) then None else lookup (chatKey key) st.
Proof.
  unfold removeS, unlist.
  assert (E : forall st', lookup (chatKey key) (remove (chatKey streamId) (remove (streamKey streamId) st')) =
                          if String.eqb (chatKey streamId) (chatKey key) then None
                          else lookup (chatKey key) st').
  { intros st'. rewrite lookup_remove.
    destruct (String.eqb (chatKey streamId) (chatKey key)); [reflexivity|].
    apply lookup_remove_other, streamKey_chatKey. }
  destruct (lookup globalKey _) as [[s|l| | |]|]; try apply E.
  rewrite lookup_store_other by (intros Q; symmetry in Q; now apply chatKey_global in Q).
  apply E.
Qed.




(** ** What ending and creating a stream do to the other streams *)

Lemma chatKey_inj (a b : string) : chatKey a = chatKey b -> a = b.
Proof. unfold chatKey, chatPrefix; simpl; congruence. Qed.
















(** ** Expiry *)

(** X17: in a storage whose index mirrors its records, a pass at a time
    24 hours or more after the start time of a live stream deletes the
    record of that stream, lists no stream with its id, returned or in
    the index, and makes joining it fail; the transcript of the stream
    is not deleted and still reads as before. *)
Theorem expiry_keeps_transcript (w : World) (t : Z) (streamId : string) (r : StreamData) :
  wellIndexed (ls w) ->
  lookup (streamKey streamId) (ls w) = Some (SStream r) ->
  Stream.isLive r = true ->
  maxAge <= t - Stream.startTime r ->
  let w' := after (getAllActiveStreams t w) in
  (forall s, In s (activeStreams t w) -> Stream.id s <> streamId) /\
  lookup (streamKey streamId) (ls w') = None /\
  (forall e, In e (indexOf (ls w')) -> Stream.id e <> streamId) /\
  lookup (chatKey streamId) (ls w') = lookup (chatKey streamId) (ls w) /\
  result (getChatMessages streamId w') = result (getChatMessages streamId w) /\
  (forall rnd viewerName viewerAddress,
     result (joinStream t rnd streamId viewerName viewerAddress w) = Ret false).
Proof.
  intros W E L Y w'.
  assert (A : forall s, In s (activeStreams t w) -> Stream.id s <> streamId).
  { intros s I Q. apply (active_mirrored w t s W) in I as (H & _ & F).
    apply (held_own_key w W) in H as [H _]. rewrite Q, E in H. injection H as ->.
    unfold fresh in F. lia. }
  destruct (getAll_frame t w) as (C & B & G & _). fold w' in C, B, G.
  split; [exact A|]. split; [|split; [|split; [|split]]].
  - destruct (lookup (streamKey streamId) (ls w')) as [v|] eqn:E'; [|reflexivity].
    pose proof (B _ _ E') as E0. rewrite E in E0. injection E0 as <-.
    assert (H : held r (ls w')) by (now exists streamId).
    apply (pass_live_held w t r W L) in H as [_ F]. unfold fresh in F. lia.
  - unfold indexOf. rewrite G. exact A.
  - apply C.
  - rewrite !getChatMessages_run. unfold result, chatOf; simpl. now rewrite C.
  - intros rnd viewerName viewerAddress.
    pose proof (joinStream_ls t rnd streamId viewerName viewerAddress w) as J. simpl in J.
    rewrite (find_hasId_absent streamId _ A) in J. now rewrite J.
Qed.

(** the demo stream, with a transcript, a day after its start *)
Lemma expiry_keeps_transcript_witness :
  let w := after (sendMessage demoTime "r1" demoId "Alice" "hello" None demoWorld) in
  let w' := after (getAllActiveStreams (demoTime + 24 * hour) w) in
  wellIndexed (ls w) /\
  lookup (streamKey demoId) (ls w) = Some (SStream demoStream) /\
  lookup (streamKey demoId) (ls w') = None /\
  List.length (chatOf demoId (ls w')) = 1%nat /\
  result (getChatMessages demoId w') = result (getChatMessages demoId w).
Proof.
  intros w w'.
  assert (W : wellIndexed (ls w)).
  { apply (wellIndexed_runOp (OpSend demoTime "r1" demoId "Alice" "hello" None)),
      demoWorld_wellIndexed. }
  destruct (expiry_keeps_transcript w (demoTime + 24 * hour) demoId demoStream W)
    as (_ & A & _ & _ & B & _); [reflexivity|reflexivity|now vm_compute|].
  split; [exact W|]. split; [reflexivity|]. split; [exact A|]. split; [reflexivity|exact B].
Defined.

(** ** The viewer count over a run of calls *)







(** ** Updating a stream *)




(** ** Generated ids *)









(** ** Passes in a row *)

Lemma has_head id ids : has id (id :: ids) = true.
Proof. unfold has; simpl. now rewrite String.eqb_refl. Qed.

Lemma has_tail id id' ids : has id ids = true -> has id (id' :: ids) = true.
Proof. unfold has; simpl. intros ->. apply orb_true_r. Qed.

Lemma indexEntry_fresh t acc e w :
  Stream.isLive e = true -> Stream.id e <> "" ->
  lookup (streamKey (Stream.id e)) (ls w) = Some (SStream e) ->
  has (Stream.id e) (streamIds acc) = false -> freshB t e = true ->
  indexEntry t acc e w = (Ret (push acc e (Stream.id e)), w).
Proof.
  intros L N K H F. apply String.eqb_neq in N. unfold freshB in F.
  unfold indexEntry, nonEmpty. rewrite L, N, H, F. simpl.
  unfold bind, getItem, tryCatch, parseStream, ret. rewrite K. simpl. now rewrite L.
Qed.

Lemma indexEntry_stale t acc e w :
  freshB t e = false ->
  indexEntry t acc e w = (Ret acc, withStorage w (remove (streamKey (Stream.id e)) (ls w))).
Proof.
  intros F. unfold freshB in F. unfold indexEntry. rewrite F, andb_false_r.
  apply Z.ltb_ge in F. destruct (Z.geb_spec (t - Stream.startTime e) maxAge) as [_|G]; [|lia].
  reflexivity.
Qed.

(** Method 1 over an index that lists live records, each stored under
    the key of its own, non-empty id, no id twice: the entries under
    24 hours old are collected in the order of the index *)
Lemma method1_stable t : forall l acc w,
  NoDup (map Stream.id l) ->
  (forall e, In e l ->
     Stream.isLive e = true /\ Stream.id e <> "" /\
     lookup (streamKey (Stream.id e)) (ls w) = Some (SStream e) /\
     has (Stream.id e) (streamIds acc) = false) ->
  exists acc' w',
    foldM (indexEntry t) l acc w = (Ret acc', w') /\
    streams acc' = (streams acc ++ filter (freshB t) l)%list /\
    purged (ls w) (ls w') /\
    (forall e, In e l -> freshB t e = true -> has (Stream.id e) (streamIds acc') = true) /\
    (forall id, has id (streamIds acc) = true -> has id (streamIds acc') = true).
Proof.
  induction l as [|e l IH]; intros acc w N A; simpl.
  - exists acc, w. rewrite app_nil_r. unfold ret.
    split; [reflexivity|]. split; [reflexivity|]. split; [apply purged_refl|].
    split; [intros ? []|auto].
  - inversion N as [|? ? M N']; subst.
    destruct (A e (or_introl eq_refl)) as (L & NE & K & H).
    assert (D : forall e', In e' l -> Stream.id e <> Stream.id e').
    { intros e' I Q. apply M. rewrite Q. now apply in_map. }
    unfold bind. destruct (freshB t e) eqn:F.
    + rewrite (indexEntry_fresh t acc e w L NE K H F).
      destruct (IH (push acc e (Stream.id e)) w N') as (acc' & w' & E & S & P & B & C).
      { intros e' I. destruct (A e' (or_intror I)) as (L' & NE' & K' & H').
        split; [exact L'|]. split; [exact NE'|]. split; [exact K'|].
        change (streamIds (push acc e (Stream.id e))) with (Stream.id e :: streamIds acc).
        rewrite has_cons_other; auto. }
      exists acc', w'. split; [exact E|]. split; [|split; [exact P|split]].
      * rewrite S. simpl. now rewrite <- app_assoc.
      * intros e' [<-|I] F'; [apply C; apply has_head|now apply B].
      * intros id Hid. apply C. now apply has_tail.
    + rewrite (indexEntry_stale t acc e w F).
      destruct (IH acc (withStorage w (remove (streamKey (Stream.id e)) (ls w))) N')
        as (acc' & w' & E & S & P & B & C).
      { intros e' I. destruct (A e' (or_intror I)) as (L' & NE' & K' & H').
        split; [exact L'|]. split; [exact NE'|]. split; [|exact H'].
        simpl. rewrite lookup_remove_stream_other; auto. }
      exists acc', w'. split; [exact E|]. split; [exact S|]. split; [|split].
      * eapply purged_trans; [|exact P]. simpl. apply purged_remove, purged_refl.
      * intros e' [<-|I] F'; [congruence|now apply B].
      * exact C.
Qed.

(** the scan adds nothing when every live record under 24 hours old
    has its id among those collected *)
Lemma scanEntry_stable t acc1 w0 key acc w :
  (forall k v, lookup (streamKey k) (ls w0) = Some (SStream v) ->
     Stream.isLive v = true -> freshB t v = true -> has (Stream.id v) (streamIds acc1) = true) ->
  acc = acc1 /\ purged (ls w0) (ls w) ->
  exists acc' w', scanEntry t key acc w = (Ret acc', w') /\ (acc' = acc1 /\ purged (ls w0) (ls w')).
Proof.
  intros A [-> P].
  assert (Same : exists acc' w', (Ret acc1, w) = (Ret acc', w') /\
                                 (acc' = acc1 /\ purged (ls w0) (ls w'))) by eauto.
  assert (Drop : forall k, exists acc' w',
             (Ret acc1, withStorage w (remove (streamKey k) (ls w))) = (Ret acc', w') /\
             (acc' = acc1 /\ purged (ls w0) (ls w'))).
  { intros k. do 2 eexists; split; [reflexivity|]. split; [reflexivity|].
    simpl. now apply purged_remove. }
  unfold scanEntry, bind, tryCatch, getItem, removeItem, parseStream, ret, throw.
  destruct key as [key|]; auto.
  destruct (nonEmpty key && startsWith key streamPrefix) eqn:K; auto.
  apply andb_true_iff in K as [_ K]. apply startsWith_inv in K as [id ->].
  destruct (lookup (streamKey id) (ls w)) as [[v| | | |]|] eqn:E; simpl; auto.
  destruct (_ && _ && _ && _) eqn:C.
  - exfalso. apply andb_true_iff in C as [C F]. apply andb_true_iff in C as [C H].
    apply andb_true_iff in C as [L _]. apply negb_true_iff in H.
    rewrite (A id v (purged_found _ _ _ _ P E) L F) in H. discriminate.
  - destruct (_ || _); auto.
Qed.

Lemma pass_stable_list w w1 t t' :
  wellIndexed (ls w) -> ls w1 = ls (after (getAllActiveStreams t w)) ->
  activeStreams t' w1 = filter (freshB t') (activeStreams t w).
Proof.
  intros W E.
  assert (W1 : wellIndexed (ls w1)) by (rewrite E; apply wellIndexed_getAll, W).
  destruct (getAll_distinct w t (wellIndexed_keyConsistent _ W)) as [N D].
  destruct (getAll_frame t w) as (_ & _ & G & _). rewrite <- E in G.
  assert (Idx : indexOf (ls w1) = activeStreams t w) by (unfold indexOf; now rewrite G).
  assert (Listed : forall v, held v (ls w1) -> Stream.isLive v = true -> In v (activeStreams t w)).
  { intros v H L. rewrite E in H. apply (pass_live_held w t v W L) in H as [H F].
    apply (active_mirrored w t v W). auto. }
  destruct (method1_stable t' (activeStreams t w) emptyFound w1 N) as (acc1 & w1' & E1 & S & P & B & _).
  { intros e I. apply (active_mirrored w t e W) in I as (H & L & F).
    assert (H1 : held e (ls w1)) by (rewrite E; apply (pass_live_held w t e W L); auto).
    apply (held_own_key w1 W1) in H1 as [K NE]. auto. }
  simpl in S.
  destruct (scanLoop_inv (fun acc w' => acc = acc1 /\ purged (ls w1) (ls w')) t'
              (fun key acc w' => scanEntry_stable t' acc1 w1 key acc w'
                 (fun k v E L F => B v (Listed v (ex_intro _ k E) L) F))
              (List.length (ls w1')) 0%nat acc1 w1' (conj eq_refl P))
    as (acc2 & w2 & E2 & -> & _).
  rewrite <- Idx in E1.
  unfold activeStreams at 1, getAllActiveStreams. rewrite (getAll_phases _ _ _ _ _ _ E1 E2).
  unfold result; simpl. rewrite S. apply filter_all.
  intros s I. apply filter_In in I as [I _].
  now apply (active_mirrored w t s W) in I as (_ & L & _).
Qed.

(** X21: in a storage whose index mirrors its records, the list of
    [getAllActiveStreams()] is stable from pass to pass: a pass that
    follows another returns the list of the first one, in the same
    order, without the streams that are 24 hours old by then; at the
    same time it returns the same list.  So two turns of the periodic
    loop ([syncStreams]) hand the subscribers of [streamsUpdated] the
    list of the first turn and then that list less the streams that
    have expired. *)
Theorem pass_stable (w : World) (t t' : Z) :
  wellIndexed (ls w) ->
  let w1 := after (getAllActiveStreams t w) in
  activeStreams t' w1 = filter (freshB t') (activeStreams t w) /\
  activeStreams t w1 = activeStreams t w /\
  invoked (after (syncStreams t' (after (syncStreams t w)))) =
    (invoked w
     ++ map (fun l => (fid l, PStreams (activeStreams t w))) (subscribers "streamsUpdated" w)
     ++ map (fun l => (fid l, PStreams (filter (freshB t') (activeStreams t w))))
            (subscribers "streamsUpdated" w))%list.
Proof.
  intros W w1. split; [now apply pass_stable_list|]. split.
  - unfold w1. rewrite (pass_stable_list w _ t t W eq_refl). apply filter_all.
    intros s I. apply (active_mirrored w t s W) in I as (_ & _ & F).
    unfold freshB. now apply Z.ltb_lt.
  - set (w2 := afterTrigger "streamsUpdated" (PStreams (activeStreams t w)) w1).
    assert (E2 : after (syncStreams t w) = w2) by (rewrite syncStreams_run; reflexivity).
    rewrite E2, (syncStreams_run t' w2).
    rewrite (pass_stable_list w w2 t t' W eq_refl).
    destruct (getAll_frame t' w2) as (_ & _ & _ & Li & I & _).
    destruct (getAll_frame t w) as (_ & _ & _ & Li1 & I1 & _). fold w1 in Li1, I1.
    unfold after at 1; simpl. unfold subscribers. rewrite I, Li. simpl.
    unfold subscribers. rewrite I1, Li1. now rewrite <- app_assoc.
Qed.

(** two streams, the first of which is a day old at the second pass *)
Lemma pass_stable_witness :
  let w := runCalls [CallCreate (demoTime + 1) "b7q2" (sample "" true (demoTime + hour) 0)] demoWorld in
  let other := newStream (demoTime + 1) "b7q2" (sample "" true (demoTime + hour) 0) in
  let w1 := after (getAllActiveStreams (demoTime + hour) w) in
  wellIndexed (ls w) /\
  activeStreams (demoTime + hour) w = [demoStream; other] /\
  activeStreams (demoTime + hour) w1 = [demoStream; other] /\
  activeStreams (demoTime + 24 * hour) w1 = [other].
Proof.
  intros w other w1.
  assert (W : wellIndexed (ls w)) by (apply wellIndexed_runCalls, demoWorld_wellIndexed).
  destruct (pass_stable w (demoTime + hour) (demoTime + 24 * hour) W) as (A & B & _).
  split; [exact W|]. split; [reflexivity|]. split; [exact B|exact A].
Defined.

(** ** What a join emits, and what stays in the window *)

Lemma joinStream_run now rnd streamId viewerName viewerAddress w stream :
  find (hasId streamId) (activeStreams now w) = Some stream ->
  let wu := after (updateStream now streamId (setViewerCount (Stream.viewerCount stream + 1))
                     (after (getAllActiveStreams now w))) in
  let joinMessage := joinMessageOf now rnd streamId viewerName in
  joinStream now rnd streamId viewerName viewerAddress w =
  (Ret true,
   afterTrigger "newMessage" (PMessage joinMessage)
     (afterTrigger "viewerJoined" (PViewer streamId viewerName viewerAddress)
        (withStorage wu (appendChat streamId joinMessage (ls wu))))).
Proof.
  intros F wu joinMessage. unfold joinStream.
  rewrite (bind_run _ (getAll_eq now w)), F.
  destruct (updateStream_returns now streamId
              (setViewerCount (Stream.viewerCount stream + 1))
              (after (getAllActiveStreams now w))) as [b E].
  rewrite (bind_run _ E), (bind_run _ (getChatMessages_run _ _)).
  unfold bind, setItem. rewrite !triggerListeners_run. reflexivity.
Qed.

Lemma leaveStream_run now rnd streamId viewerName w stream :
  find (hasId streamId) (activeStreams now w) = Some stream ->
  let wu := after (updateStream now streamId
                     (setViewerCount (Z.max 0 (Stream.viewerCount stream - 1)))
                     (after (getAllActiveStreams now w))) in
  let leaveMessage := leaveMessageOf now rnd streamId viewerName in
  leaveStream now rnd streamId viewerName w =
  (Ret true,
   afterTrigger "newMessage" (PMessage leaveMessage)
     (afterTrigger "viewerLeft" (PViewer streamId viewerName None)
        (withStorage wu (appendChat streamId leaveMessage (ls wu))))).
Proof.
  intros F wu leaveMessage. unfold leaveStream.
  rewrite (bind_run _ (getAll_eq now w)), F.
  destruct (updateStream_returns now streamId
              (setViewerCount (Z.max 0 (Stream.viewerCount stream - 1)))
              (after (getAllActiveStreams now w))) as [b E].
  rewrite (bind_run _ E), (bind_run _ (getChatMessages_run _ _)).
  unfold bind, setItem. rewrite !triggerListeners_run. reflexivity.
Qed.

Lemma updateStream_posted now streamId updates w :
  posted (after (updateStream now streamId updates w)) = posted w /\
  listeners (after (updateStream now streamId updates w)) = listeners w.
Proof.
  rewrite updateStream_run.
  destruct (lookup _ _) as [[s|l| | |]|]; split; reflexivity.
Qed.



Lemma runOp_posted op w : posted (after (runOp op w)) = posted w.
Proof.
  destruct op as [now rnd id sender message senderAddress
                 |now rnd id viewerName viewerAddress
                 |now rnd id viewerName]; simpl.
  - rewrite sendMessage_run. reflexivity.
  - destruct (getAll_frame now w) as (_ & _ & _ & _ & _ & P).
    destruct (find (hasId id) (activeStreams now w)) as [stream|] eqn:F.
    + pose proof (joinStream_run now rnd id viewerName viewerAddress w stream F) as R.
      simpl in R. rewrite R. unfold after at 1; simpl.
      destruct (updateStream_posted now id (setViewerCount (Stream.viewerCount stream + 1))
                  (after (getAllActiveStreams now w))) as [-> _]. exact P.
    + pose proof (joinStream_ls now rnd id viewerName viewerAddress w) as J. simpl in J.
      rewrite F in J. rewrite J. exact P.
  - destruct (getAll_frame now w) as (_ & _ & _ & _ & _ & P).
    destruct (find (hasId id) (activeStreams now w)) as [stream|] eqn:F.
    + pose proof (leaveStream_run now rnd id viewerName w stream F) as R.
      simpl in R. rewrite R. unfold after at 1; simpl.
      destruct (updateStream_posted now id
                  (setViewerCount (Z.max 0 (Stream.viewerCount stream - 1)))
                  (after (getAllActiveStreams now w))) as [-> _]. exact P.
    + pose proof (leaveStream_ls now rnd id viewerName w) as J. simpl in J.
      rewrite F in J. rewrite J. exact P.
Qed.

Lemma lookup_acceptS_chat id s st : lookup (chatKey id) (acceptS s st) = lookup (chatKey id) st.
Proof.
  apply lookup_acceptS_other; [|apply chatKey_global].
  intros id' Q. symmetry in Q. now apply streamKey_chatKey in Q.
Qed.

(** X23: chat and viewer counts stay in the window.  [sendMessage],
    [joinStream], [leaveStream] and [updateStream] post nothing on the
    channel, in any storage; and the handler of a message from another
    window never writes a transcript: whatever the message, every
    transcript is as it was, except that a [streamEnded] message
    deletes the transcript of the stream it names. *)
Theorem chat_stays_local (w : World) (now : Z) :
  (forall op, posted (after (runOp op w)) = posted w) /\
  (forall streamId updates, posted (after (updateStream now streamId updates w)) = posted w) /\
  (forall data id,
     (forall sender, data <> BStreamEnded id sender) ->
     lookup (chatKey id) (ls (after (onMessage now data w))) = lookup (chatKey id) (ls w)) /\
  (forall id sender,
     lookup (chatKey id) (ls (after (onMessage now (BStreamEnded id sender) w))) = None).
Proof.
  split; [intros op; apply runOp_posted|].
  split; [intros streamId updates; apply updateStream_posted|].
  assert (S : forall v id, lookup (chatKey id) (ls (after (syncStreams now v))) =
                           lookup (chatKey id) (ls v)).
  { intros v id. rewrite syncStreams_run. unfold after at 1; simpl.
    now destruct (getAll_frame now v) as (-> & _). }
  split.
  - intros data id N. destruct data as [stream s|streamId s|s|streams s|s]; unfold onMessage.
    + rewrite (bind_run _ (storeStreamFromBroadcast_ls stream w)).
      rewrite (bind_run _ (triggerListeners_run _ _ _)), S. simpl.
      apply lookup_acceptS_chat.
    + rewrite (bind_run _ (removeStreamFromBroadcast_run streamId w)).
      rewrite (bind_run _ (triggerListeners_run _ _ _)), S. simpl.
      rewrite removeS_lookup_chat.
      destruct (String.eqb_spec (chatKey streamId) (chatKey id)) as [Q|_]; [|reflexivity].
      apply chatKey_inj in Q. subst. destruct (N s eq_refl).
    + change (getAllStreamsFromStorage now) with (getAllActiveStreams now).
      rewrite (bind_run _ (getAll_eq now w)).
      destruct (getAll_frame now w) as (C & _).
      destruct (activeStreams now w); unfold after at 1; simpl; apply C.
    + destruct (String.eqb s (windowId w)); simpl; [reflexivity|].
      rewrite (bind_run _ (forEach_storeStreamFromBroadcast streams w)), S. simpl.
      apply lookup_acceptAll_other; [|apply chatKey_global].
      intros id' Q. symmetry in Q. now apply streamKey_chatKey in Q.
    + reflexivity.
  - intros id sender. unfold onMessage.
    rewrite (bind_run _ (removeStreamFromBroadcast_run id w)).
    rewrite (bind_run _ (triggerListeners_run _ _ _)), S. simpl.
    rewrite removeS_lookup_chat. now rewrite String.eqb_refl.
Qed.

(** ** Passes heal the storage in the end *)


















(** ** The index mirrors the records, whatever the window does *)








(** ** What ending a stream emits, and what the streamer's page reads *)

(** X26: [endStream(id)] on a stream whose record decodes under its
    key, in any storage: it returns normally; the subscribers of
    [streamUpdated] are called first, with the record marked not live
    and stamped with the time of the call, then those of
    [streamEnded] with the id; one [streamEnded] message is posted when
    the channel exists; afterwards nothing is stored under the key of
    the stream, its transcript is gone and the index lists no entry
    with its id. *)
Theorem endStream_events (w : World) (now : Z) (streamId : string) (r : StreamData) :
  lookup (streamKey streamId) (ls w) = Some (SStream r) ->
  let w' := after (endStream now streamId w) in
  let ended := merge r (setIsLive false) now in
  result (endStream now streamId w) = Ret tt /\
  Stream.isLive ended = false /\ Stream.lastUpdate ended = now /\
  invoked w' =
    (invoked w
     ++ map (fun l => (fid l, PStream ended)) (subscribers "streamUpdated" w)
     ++ map (fun l => (fid l, PStreamId streamId)) (subscribers "streamEnded" w))%list /\
  posted w' = (posted w ++ if hasChannel w then [BStreamEnded streamId (windowId w)] else [])%list /\
  lookup (streamKey streamId) (ls w') = None /\
  lookup (chatKey streamId) (ls w') = None /\
  (forall e, In e (indexOf (ls w')) -> Stream.id e <> streamId).
Proof.
  intros E w' ended. subst w'.
  pose proof (endStream_run now streamId w) as R. cbv zeta in R.
  destruct (endStream_ls now streamId w) as [_ L].
  assert (U : after (updateStream now streamId (setIsLive false) w) =
              afterTrigger "streamUpdated" (PStream ended)
                (withStorage w (storeStreamS ended (ls w))))
    by (rewrite updateStream_run, E; reflexivity).
  rewrite U in R.
  split; [now rewrite R|]. split; [reflexivity|]. split; [reflexivity|].
  split; [|split; [|split; [|split]]].
  - rewrite R. unfold after, afterBroadcast; simpl.
    destruct (hasChannel w); simpl; unfold subscribers; simpl; now rewrite <- app_assoc.
  - rewrite R. unfold after, afterBroadcast; simpl.
    destruct (hasChannel w); simpl; [reflexivity|now rewrite app_nil_r].
  - rewrite L. apply endS_stream_absent.
  - rewrite L. apply endS_chat_absent.
  - rewrite L. apply endS_index.
Qed.

(** the demo stream is ended, with a subscriber to each of the events *)
Lemma endStream_events_witness :
  let w := after (on "streamEnded" quiet (after (on "streamUpdated" faulty demoWorld))) in
  let w' := after (endStream (demoTime + hour) demoId w) in
  lookup (streamKey demoId) (ls w) = Some (SStream demoStream) /\
  invoked w' = [(1%nat, PStream (merge demoStream (setIsLive false) (demoTime + hour)));
                (2%nat, PStreamId demoId)] /\
  posted w' = [BStreamCreated demoStream "window_0_a"; BStreamEnded demoId "window_0_a"] /\
  lookup (streamKey demoId) (ls w') = None.
Proof.
  intros w w'.
  destruct (endStream_events w (demoTime + hour) demoId demoStream eq_refl)
    as (_ & _ & _ & I & P & K & _).
  split; [reflexivity|]. split; [exact I|]. split; [exact P|exact K].
Defined.


